(** * ksv::static_vector<T, N>: a fixed-capacity vector over inline storage

    A shallow embedding of [static_vector.h] and the properties of its
    specification.

    - A container object is a record of its two instance fields: the raw
      [buffer], seen slot by slot (slot [i] is the storage at
      [buffer + i * sizeof(T)], holding a live [T] or nothing), and
      [curr_size], a [std::size_t].
    - Objects live in a store indexed by address, so that [*this], [other]
      and local temporaries may or may not be the same object.
    - Member functions are computations in a state and exception monad over
      that store.  The store also carries the chronological trace of the
      element constructions and destructions the code performs.
    - Slots are indexed by [Z] with no bound: constructing at a slot index
      [>= N] is the store past the end of [buffer] that the code performs.
      Storing into a slot, exchanging two slots and destroying a slot are
      followed as the code performs them, whether the slot holds an object
      or not; a computation is [Undefined] only where it needs the value of
      a [T] from a slot that holds none (to copy or to compare it).
    - Three steps of the model say less than the program does.  A
      construction at slot [N] is recorded in a cell of its own, where the
      program writes over the bytes that follow [buffer] ([curr_size] or
      padding); the model is exact for the slots below [N].  An exchange
      with a slot that holds no object, and a destruction of such a slot,
      are recorded as moving or removing nothing, where the program runs
      the move operations or the destructor of [T] on storage in which no
      [T] was constructed.  The properties below are about runs that stay
      among constructed slots below [N], except where a property is itself
      the statement that the code leaves them ([swappable_ranges] is the
      requirement an exchange breaks). *)

From stdpp Require Import gmap list numbers.

Module ksv.

(** ** Element type

    The capabilities of [T] the container relies on.  A constructor that
    throws is [None]. *)
Class Element (T : Type) := {
  copy_construct : T → option T;      (* T(const T&) *)
  move_construct : T → option T;      (* T(T&&) *)
  elem_eq : T → T → bool;             (* operator==(const T&, const T&) *)
}.

(** ** std::size_t and std::ptrdiff_t, 64 bits wide

    Arithmetic on [std::size_t] wraps around. *)
Definition SIZE_MODULUS : Z := 2 ^ 64.
Definition PTRDIFF_MAX : Z := 2 ^ 63 - 1.
Definition to_size_t (z : Z) : Z := z mod SIZE_MODULUS.

(** ** Exceptions and the outcome of a computation *)
Inductive exn :=
  | out_of_range        (* std::out_of_range("Out of Range.") *)
  | length_error        (* std::length_error("Reached max capacity.") *)
  | bad_alloc           (* std::bad_alloc() *)
  | element_exception.  (* whatever a constructor of T threw *)

Inductive outcome (A : Type) :=
  | Ok (a : A)
  | Throw (e : exn)
  | Undefined.          (* the value of a T, or an object, that does not exist is needed *)
Arguments Ok {A} a.
Arguments Throw {A} e.
Arguments Undefined {A}.

Abbreviation addr := positive.

Section container.

Context {T : Type}.

(** ** Objects, events, the store *)
Record static_vector := StaticVector {
  buffer : gmap Z T;    (* alignas(T) std::byte buffer[sizeof(T) * N] *)
  curr_size : Z;        (* size_type curr_size{0} *)
}.

Inductive event :=
  | Construct (obj : addr) (slot : Z) (v : T)          (* ::new (p) T(...) *)
  | Destroy (obj : addr) (slot : Z) (v : option T).    (* std::destroy_at(p) *)

Record world := World {
  objs : gmap addr static_vector;
  trace : list event;
}.

Definition M (A : Type) : Type := world → outcome A * world.

Definition ret {A} (a : A) : M A := λ w, (Ok a, w).
Definition bind {A B} (m : M A) (k : A → M B) : M B := λ w,
  match m w with
  | (Ok a, w') => k a w'
  | (Throw e, w') => (Throw e, w')
  | (Undefined, w') => (Undefined, w')
  end.
Definition throw {A} (e : exn) : M A := λ w, (Throw e, w).
Definition undefined {A} : M A := λ w, (Undefined, w).

(** [try { body } catch (...) { handler; throw; }] *)
Definition try_catch_rethrow {A} (body : M A) (handler : M unit) : M A := λ w,
  match body w with
  | (Throw e, w') =>
      match handler w' with
      | (Ok _, w'') => (Throw e, w'')
      | (Throw e', w'') => (Throw e', w'')
      | (Undefined, w'') => (Undefined, w'')
      end
  | r => r
  end.

End container.

Arguments static_vector : clear implicits.
Arguments event : clear implicits.
Arguments world : clear implicits.
Arguments M : clear implicits.

#[global] Instance M_ret {T} : MRet (M T) := λ A, ret.
#[global] Instance M_bind {T} : MBind (M T) := λ A B k m, bind m k.

Local Open Scope Z_scope.

Section methods.

Context {T : Type} `{Element T}.
(** The template parameter [std::size_t N] *)
Variable N : Z.

Abbreviation static_vector := (static_vector T).
Abbreviation M := (M T).

(** ** Access to the store *)
Definition load (this : addr) : M static_vector := λ w,
  match objs w !! this with
  | Some s => (Ok s, w)
  | None => (Undefined, w)
  end.

Definition store (this : addr) (s : static_vector) : M unit := λ w,
  (Ok tt, {| objs := <[this := s]> (objs w); trace := trace w |}).

Definition emit (ev : event T) : M unit := λ w,
  (Ok tt, {| objs := objs w; trace := trace w ++ [ev] |}).

Definition set_curr_size (this : addr) (n : Z) : M unit :=
  s ← load this;
  store this {| buffer := buffer s; curr_size := n |}.

Definition set_slot (this : addr) (i : Z) (c : option T) : M unit :=
  s ← load this;
  store this {| buffer := partial_alter (λ _, c) i (buffer s);
                curr_size := curr_size s |}.

(** A [T*] / [T&] into a container: the object and the slot. *)
Definition pointer : Type := addr * Z.

Definition ptr_add (p : pointer) (k : Z) : pointer := (p.1, p.2 + k).

(** The content of the storage a pointer designates. *)
Definition peek (p : pointer) : M (option T) :=
  s ← load p.1; ret (buffer s !! p.2).

(** Reading the [T] behind a reference. *)
Definition deref (p : pointer) : M T :=
  c ← peek p;
  match c with
  | Some x => ret x
  | None => undefined
  end.

(** [::new (p) T(...)], given what the selected constructor of [T] yields.
    For a slot index below [N] this is the store into the buffer; at [N]
    and above, the program's store lands outside the buffer. *)
Definition placement_new (p : pointer) (made : option T) : M unit :=
  match made with
  | None => throw element_exception
  | Some x => set_slot p.1 p.2 (Some x);; emit (Construct p.1 p.2 x)
  end.

(** [std::destroy_at(p)]; on a slot that holds no object the event carries
    [None]: the program runs the destructor of [T] there all the same. *)
Definition destroy_at (p : pointer) : M unit :=
  c ← peek p;
  emit (Destroy p.1 p.2 c);;
  set_slot p.1 p.2 None.

Fixpoint for_each {A} (l : list A) (body : A → M unit) : M unit :=
  match l with
  | [] => ret tt
  | x :: l' => body x;; for_each l' body
  end.

(** ** Private members *)

(** [std::launder(reinterpret_cast<pointer>(buffer))] is the pointer to
    slot 0 of the object's buffer. *)
Definition cleaned_data_ptr (this : addr) (idx : Z) : pointer :=
  let p : pointer := (this, 0) in
  ptr_add p idx.

Definition cleaned_const_data_ptr (this : addr) (idx : Z) : pointer :=
  let p : pointer := (this, 0) in
  ptr_add p idx.

Definition validate_index (this : addr) (index : Z) : M unit :=
  s ← load this;
  if bool_decide (index >= curr_size s) then throw out_of_range else ret tt.

Definition validate_curr_size (this : addr) : M unit :=
  s ← load this;
  if bool_decide (curr_size s > N) then throw length_error else ret tt.

Definition validate_count (count : Z) : M unit :=
  if bool_decide (count > N) then throw bad_alloc else ret tt.

Definition clear_elements (this : addr) : M unit :=
  let cleaned_ptr := cleaned_data_ptr this 0 in
  s ← load this;
  for_each (seqZ 0 (curr_size s)) (λ i,
    s ← load this;
    destroy_at (ptr_add cleaned_ptr (to_size_t (to_size_t (curr_size s - 1) - i))));;
  set_curr_size this 0.

Definition pb_internal (this : addr) (value : T) : M unit :=
  s ← load this;
  placement_new (this, curr_size s) (copy_construct value);;
  s ← load this;
  set_curr_size this (to_size_t (curr_size s + 1)).

Definition mb_internal (this : addr) (value : T) : M unit :=
  s ← load this;
  placement_new (this, curr_size s) (move_construct value);;
  s ← load this;
  set_curr_size this (to_size_t (curr_size s + 1)).

(** [args] stands for the pack [Args&&... args] and [ctor] for the
    constructor of [T] that overload resolution selects for it. *)
Definition eb_internal {Args} (ctor : Args → option T) (this : addr) (args : Args) : M unit :=
  s ← load this;
  placement_new (this, curr_size s) (ctor args);;
  s ← load this;
  set_curr_size this (to_size_t (curr_size s + 1)).

(** ** Standard algorithms on pointers into containers *)

(** [std::iter_swap(p, q)]: afterwards each storage holds what the other
    held (the three moves of [std::swap] are taken to preserve values and
    not to throw).  [std::swap] requires two objects; when a slot holds
    none, the exchange recorded here stands for moves of [T] on storage
    without an object. *)
Definition iter_swap (p q : pointer) : M unit :=
  a ← peek p;
  b ← peek q;
  set_slot p.1 p.2 b;;
  set_slot q.1 q.2 a.

(** [std::swap_ranges(first1, last1, first2)] *)
Definition swap_ranges (first1 last1 first2 : pointer) : M unit :=
  for_each (seqZ 0 (last1.2 - first1.2)) (λ k,
    iter_swap (ptr_add first1 k) (ptr_add first2 k)).

(** [std::equal(first1, last1, first2)], with [operator==] of [T] *)
Fixpoint equal_from (offsets : list Z) (first1 first2 : pointer) : M bool :=
  match offsets with
  | [] => ret true
  | k :: rest =>
      x ← deref (ptr_add first1 k);
      y ← deref (ptr_add first2 k);
      if elem_eq x y then equal_from rest first1 first2 else ret false
  end.

Definition std_equal (first1 last1 first2 : pointer) : M bool :=
  equal_from (seqZ 0 (last1.2 - first1.2)) first1 first2.

(** [std::distance(begin, end)] of a source range, given as the list of
    the elements between the two iterators *)
Definition distance (src : list T) : Z := Z.of_nat (length src).

(** A local variable of class type: fresh storage for the duration of
    [body], released on every way out. *)
Definition automatic {A} (body : addr → M A) : M A := λ w,
  let tmp := fresh (dom (objs w)) in
  let fresh_storage := {| buffer := ∅; curr_size := 0 |} in
  let '(r, w') := body tmp {| objs := <[tmp := fresh_storage]> (objs w);
                              trace := trace w |} in
  (r, {| objs := delete tmp (objs w'); trace := trace w' |}).

(** ** Public members: capacity queries, access, iterators *)

Definition empty (this : addr) : M bool :=
  s ← load this; ret (bool_decide (curr_size s = 0)).

Definition size (this : addr) : M Z :=
  s ← load this; ret (curr_size s).

Definition capacity (this : addr) : M Z := ret N.

Definition at_ (this : addr) (pos : Z) : M pointer :=
  validate_index this pos;;
  ret (cleaned_data_ptr this pos).

Definition subscript (this : addr) (pos : Z) : M pointer :=
  ret (cleaned_data_ptr this pos).

Definition front (this : addr) : M pointer :=
  ret (cleaned_data_ptr this 0).

Definition back (this : addr) : M pointer :=
  s ← load this; ret (cleaned_data_ptr this (to_size_t (curr_size s - 1))).

Definition begin (this : addr) : M pointer :=
  ret (cleaned_data_ptr this 0).

Definition end_ (this : addr) : M pointer :=
  s ← load this; ret (cleaned_data_ptr this (curr_size s)).

Definition data (this : addr) : M pointer :=
  ret (cleaned_data_ptr this 0).

(** The client loop [for (auto it = v.begin(); it != v.end(); ++it)]
    collecting [*it]. *)
Fixpoint collect (offsets : list Z) (first : pointer) : M (list T) :=
  match offsets with
  | [] => ret []
  | k :: rest =>
      x ← deref (ptr_add first k);
      xs ← collect rest first;
      ret (x :: xs)
  end.

Definition iterate (this : addr) : M (list T) :=
  first ← begin this;
  last ← end_ this;
  collect (seqZ 0 (last.2 - first.2)) first.

(** ** Mutation *)

Definition push_back (this : addr) (value : T) : M unit :=
  validate_curr_size this;;
  pb_internal this value.

Definition push_back_move (this : addr) (value : T) : M unit :=
  validate_curr_size this;;
  mb_internal this value.

Definition emplace_back {Args} (ctor : Args → option T) (this : addr) (args : Args) : M unit :=
  validate_curr_size this;;
  eb_internal ctor this args.

Definition pop_back (this : addr) : M unit :=
  s ← load this;
  set_curr_size this (to_size_t (curr_size s - 1));;
  s ← load this;
  destroy_at (cleaned_data_ptr this (curr_size s)).

Definition clear (this : addr) : M unit :=
  clear_elements this.

Definition swap (this other : addr) : M unit :=
  first1 ← begin this;
  last1 ← end_ this;
  first2 ← begin other;
  swap_ranges first1 last1 first2;;
  a ← load this;
  b ← load other;
  set_curr_size this (curr_size b);;
  set_curr_size other (curr_size a).

(** The friend [swap(lhs, rhs)] *)
Definition swap_friend (lhs rhs : addr) : M unit :=
  swap lhs rhs.

(** ** Constructors, destructor, assignment

    A constructor runs on fresh storage at [this]; the default member
    initialiser [curr_size{0}] comes first. *)

Definition static_vector_default (this : addr) : M unit :=
  set_curr_size this 0.

Definition static_vector_range (this : addr) (src : list T) : M unit :=
  set_curr_size this 0;;
  validate_count (to_size_t (distance src));;
  for_each src (λ x, pb_internal this x).

Definition static_vector_list (this : addr) (list : list T) : M unit :=
  static_vector_range this list.

Definition static_vector_fill (this : addr) (count : Z) (value : T) : M unit :=
  set_curr_size this 0;;
  validate_count count;;
  for_each (seqZ 0 count) (λ _, pb_internal this value).

(** [other] is another object than the one under construction, so
    [other.curr_size] is the same at every test of the loop. *)
Definition static_vector_copy (this other : addr) : M unit :=
  set_curr_size this 0;;
  try_catch_rethrow
    (o ← load other;
     for_each (seqZ 0 (curr_size o)) (λ i,
       r ← subscript other i;
       x ← deref r;
       pb_internal this x))
    (clear_elements this).

Definition static_vector_move (this other : addr) : M unit :=
  static_vector_default this;;
  swap other this.

Definition destructor (this : addr) : M unit :=
  clear_elements this.

Definition assign_copy (this other : addr) : M addr :=
  automatic (λ tmp,
    static_vector_copy tmp other;;
    swap tmp this;;
    destructor tmp);;
  ret this.

Definition assign_move (this other : addr) : M addr :=
  automatic (λ tmp,
    static_vector_move tmp other;;
    swap tmp this;;
    destructor tmp);;
  ret this.

(** ** Comparison *)

Definition operator_eq (lhs rhs : addr) : M bool :=
  n1 ← size lhs;
  n2 ← size rhs;
  if bool_decide (n1 = n2) then
    first1 ← begin lhs;
    last1 ← end_ lhs;
    first2 ← begin rhs;
    std_equal first1 last1 first2
  else ret false.

Definition operator_ne (lhs rhs : addr) : M bool :=
  b ← operator_eq lhs rhs; ret (negb b).

End methods.

(** * Reverse iterators, ordering, and a client of the mutators *)

Section reverse_iteration.

Context {T : Type}.

Abbreviation M := (M T).

(** [std::reverse_iterator<iterator>]: it stores the pointer [current];
    [*it] is [*(current - 1)], [++it] is [--current], and two reverse
    iterators are equal when their [current] are. *)
Record riterator := ReverseIterator { current : pointer }.

Definition riterator_deref (it : riterator) : M T :=
  deref (ptr_add (current it) (-1)).

Definition riterator_next (it : riterator) : riterator :=
  ReverseIterator (ptr_add (current it) (-1)).

Definition rbegin (this : addr) : M riterator :=
  e ← end_ this; ret (ReverseIterator e).

Definition rend (this : addr) : M riterator :=
  b ← begin this; ret (ReverseIterator b).

(** The client loop [for (auto it = v.rbegin(); it != v.rend(); ++it)]
    collecting [*it]; [steps] is the number of increments that take the
    first iterator to the last. *)
Fixpoint collect_reverse (steps : nat) (it : riterator) : M (list T) :=
  match steps with
  | O => ret []
  | S steps' =>
      x ← riterator_deref it;
      xs ← collect_reverse steps' (riterator_next it);
      ret (x :: xs)
  end.

Definition iterate_reverse (this : addr) : M (list T) :=
  first ← rbegin this;
  last ← rend this;
  collect_reverse (Z.to_nat ((current first).2 - (current last).2)) first.

End reverse_iteration.

(** [operator<] of the element type *)
Class Ordered (T : Type) := {
  elem_lt : T → T → bool;             (* operator<(const T&, const T&) *)
}.

Section ordering.

Context {T : Type} `{Ordered T}.

Abbreviation M := (M T).

(** The loop of [std::lexicographical_compare]: it runs while both ranges
    have elements, [at_end] being what the final
    [first1 == last1 && first2 != last2] then evaluates to. *)
Fixpoint lexicographical_from (offsets : list Z) (first1 first2 : pointer)
    (at_end : bool) : M bool :=
  match offsets with
  | [] => ret at_end
  | k :: rest =>
      x ← deref (ptr_add first1 k);
      y ← deref (ptr_add first2 k);
      if elem_lt x y then ret true
      else if elem_lt y x then ret false
      else lexicographical_from rest first1 first2 at_end
  end.

(** [std::lexicographical_compare(first1, last1, first2, last2)], with
    [operator<] of [T] *)
Definition lexicographical_compare (first1 last1 first2 last2 : pointer) : M bool :=
  let n1 := last1.2 - first1.2 in
  let n2 := last2.2 - first2.2 in
  let steps := Z.min n1 n2 in
  lexicographical_from (seqZ 0 steps) first1 first2
    (bool_decide (steps = n1) && negb (bool_decide (steps = n2))).

Definition operator_lt (lhs rhs : addr) : M bool :=
  first1 ← begin lhs;
  last1 ← end_ lhs;
  first2 ← begin rhs;
  last2 ← end_ rhs;
  lexicographical_compare first1 last1 first2 last2.

Definition operator_gt (lhs rhs : addr) : M bool :=
  operator_lt rhs lhs.

Definition operator_le (lhs rhs : addr) : M bool :=
  b ← operator_gt lhs rhs; ret (negb b).

Definition operator_ge (lhs rhs : addr) : M bool :=
  b ← operator_lt lhs rhs; ret (negb b).

End ordering.

Section client.

Context {T : Type} `{Element T}.
Variable N : Z.

Abbreviation M := (M T).

(** A caller that catches what a call throws and carries on *)
Definition attempt (call : M unit) : M unit := λ w,
  match call w with
  | (Throw _, w') => (Ok tt, w')
  | r => r
  end.

(** The mutators a careful caller applies to one container: an append
    only while [size() < capacity()], [pop_back] only when the container is
    not empty. *)
Inductive operation :=
  | do_push_back (value : T)
  | do_push_back_move (value : T)
  | do_emplace_back (Args : Type) (ctor : Args → option T) (args : Args)
  | do_pop_back
  | do_clear.

Definition perform (this : addr) (op : operation) : M unit :=
  match op with
  | do_push_back value =>
      n ← size this; c ← capacity N this;
      if bool_decide (n < c) then attempt (push_back N this value) else ret tt
  | do_push_back_move value =>
      n ← size this; c ← capacity N this;
      if bool_decide (n < c) then attempt (push_back_move N this value) else ret tt
  | do_emplace_back _ ctor args =>
      n ← size this; c ← capacity N this;
      if bool_decide (n < c) then attempt (emplace_back N ctor this args) else ret tt
  | do_pop_back => e ← empty this; if e : bool then ret tt else pop_back this
  | do_clear => clear this
  end.

Definition perform_all (this : addr) (ops : list operation) : M unit :=
  for_each ops (perform this).

End client.

(** * Vocabulary of the statements *)

Section vocabulary.

Context {T : Type}.

Abbreviation static_vector := (static_vector T).

(** The buffer and the trace after constructing [ys] in the slots from [n] on *)
Fixpoint place (n : Z) (ys : list T) (buf : gmap Z T) : gmap Z T :=
  match ys with
  | [] => buf
  | y :: ys' => place (n + 1) ys' (<[n := y]> buf)
  end.

Fixpoint constructions (this : addr) (n : Z) (ys : list T) : list (event T) :=
  match ys with
  | [] => []
  | y :: ys' => Construct this n y :: constructions this (n + 1) ys'
  end.

(** The buffer and the trace after [std::destroy_at] on [slots], in order *)
Fixpoint wipe (slots : list Z) (buf : gmap Z T) : gmap Z T :=
  match slots with
  | [] => buf
  | j :: rest => wipe rest (delete j buf)
  end.

Fixpoint destructions (this : addr) (slots : list Z) (buf : gmap Z T) : list (event T) :=
  match slots with
  | [] => []
  | j :: rest => Destroy this j (buf !! j) :: destructions this rest (delete j buf)
  end.

(** The destructions of the elements [ys] that occupy the slots from [n]
    on, listed in ascending slot order *)
Fixpoint destroyed (this : addr) (n : Z) (ys : list T) : list (event T) :=
  match ys with
  | [] => []
  | y :: ys' => Destroy this n (Some y) :: destroyed this (n + 1) ys'
  end.

(** [into], with the content of the slots [slots] taken over from [from] *)
Fixpoint graft (slots : list Z) (from into : gmap Z T) : gmap Z T :=
  match slots with
  | [] => into
  | j :: rest => graft rest from (partial_alter (λ _, from !! j) j into)
  end.

(** The container [s] holds exactly the sequence [xs]: that many live
    elements, in the slots from 0 on. *)
Definition holds (s : static_vector) (xs : list T) : Prop :=
  curr_size s = Z.of_nat (length xs)
  ∧ ∀ k x, xs !! k = Some x → buffer s !! Z.of_nat k = Some x.

(** An event on an element of [this] that lies in its buffer of [N]
    slots; for a destruction, of an element that had been constructed. *)
Definition within (N : Z) (this : addr) (e : event T) : Prop :=
  match e with
  | Construct obj slot _ => obj = this ∧ 0 ≤ slot < N
  | Destroy obj slot v => obj = this ∧ 0 ≤ slot < N ∧ is_Some v
  end.

(** What [std::swap_ranges(first1, last1, first2)] requires of its two
    ranges in [w]: at every offset, each of them holds an object. *)
Definition swappable_ranges (w : world T) (first1 last1 first2 : pointer) : Prop :=
  ∀ k, 0 ≤ k < last1.2 - first1.2 →
    ∃ x y, peek (ptr_add first1 k) w = (Ok (Some x), w)
           ∧ peek (ptr_add first2 k) w = (Ok (Some y), w).

End vocabulary.

(** The exchange as the specification words it: the contents of the slots
    below [min(a.size(), b.size())] change places, then the two sizes do.
    The result is the pair of the new [a] and the new [b]. *)
Definition swap_as_specified {T} (a b : static_vector T) : static_vector T * static_vector T :=
  let overlap := seqZ 0 (Z.min (curr_size a) (curr_size b)) in
  (StaticVector (graft overlap (buffer b) (buffer a)) (curr_size b),
   StaticVector (graft overlap (buffer a) (buffer b)) (curr_size a)).

(** What [std::equal] computes on two sequences of the same length *)
Fixpoint all_equal {T} `{Element T} (xs ys : list T) : bool :=
  match xs, ys with
  | x :: xs', y :: ys' => if elem_eq x y then all_equal xs' ys' else false
  | _, _ => true
  end.

(** [a == b] evaluates to true in [w] *)
Definition equal_in {T} `{Element T} (w : world T) (a b : addr) : Prop :=
  operator_eq a b w = (Ok true, w).

(** The lexicographic order that [std::lexicographical_compare] decides on
    two sequences *)
Fixpoint lexicographic {T} `{Ordered T} (xs ys : list T) : bool :=
  match xs, ys with
  | [], [] => false
  | [], _ :: _ => true
  | _ :: _, [] => false
  | x :: xs', y :: ys' =>
      if elem_lt x y then true
      else if elem_lt y x then false
      else lexicographic xs' ys'
  end.

(** Two elements neither of which is less than the other *)
Definition unordered {T} `{Ordered T} (x y : T) : Prop :=
  elem_lt x y = false ∧ elem_lt y x = false.

(** [a < b] evaluates to true in [w] *)
Definition less_in {T} `{Ordered T} (w : world T) (a b : addr) : Prop :=
  operator_lt a b w = (Ok true, w).

(** * Concrete element types and containers *)

(** The element type [int], whose copies and
    moves never throw *)
#[global] Instance int_element : Element Z :=
  {| copy_construct := Some; move_construct := Some; elem_eq := Z.eqb |}.

(** [operator<] of [int] *)
#[global] Instance int_ordered : Ordered Z := {| elem_lt := Z.ltb |}.

(** Storage in which no element has been constructed *)
Definition raw_storage : static_vector Z := {| buffer := ∅; curr_size := 0 |}.

(** Raw storage for one container at address 1, nothing else *)
Definition one_object : world Z :=
  {| objs := {[ 1%positive := raw_storage ]}; trace := [] |}.

(** Raw storage for two containers, at addresses 1 and 2 *)
Definition two_objects : world Z :=
  {| objs := {[ 1%positive := raw_storage; 2%positive := raw_storage ]};
     trace := [] |}.

(** An element type whose copy constructor throws on negative values *)
Definition fragile_element : Element Z :=
  {| copy_construct := λ x, if bool_decide (x < 0) then None else Some x;
     move_construct := Some;
     elem_eq := Z.eqb |}.

(** The capacity-3 container after [push_back(1)], [push_back(2)],
    [push_back(3)], and the state a fourth [push_back(4)] leaves *)
Definition full_of_3 : world Z :=
  Eval vm_compute in
    snd ((static_vector_default 1%positive;;
          push_back 3 1%positive 1;;
          push_back 3 1%positive 2;;
          push_back 3 1%positive 3) one_object).

Definition overfull_of_3 : world Z :=
  Eval vm_compute in snd (push_back 3 1%positive 4 full_of_3).

(** The container {1, 2, 3} *)
Definition sample_123 : static_vector Z :=
  {| buffer := <[0 := 1]> (<[1 := 2]> (<[2 := 3]> ∅)); curr_size := 3 |}.

(** The container {1, 2, -3, 4} *)
Definition sample_12n34 : static_vector Z :=
  {| buffer := <[0 := 1]> (<[1 := 2]> (<[2 := -3]> (<[3 := 4]> ∅))); curr_size := 4 |}.

(** The container {9} *)
Definition sample_9 : static_vector Z :=
  {| buffer := <[0 := 9]> ∅; curr_size := 1 |}.

(** Source {1, 2, -3, 4} at address 1, raw storage at address 2; the copy
    of -3 throws. *)
Definition fragile_store : gmap addr (static_vector Z) :=
  {[ 1%positive := sample_12n34; 2%positive := raw_storage ]}.

(** The container {1, 2, 4} *)
Definition sample_124 : static_vector Z :=
  {| buffer := <[0 := 1]> (<[1 := 2]> (<[2 := 4]> ∅)); curr_size := 3 |}.

(** {1, 2, 3} at address 1 alone; with raw storage, with {9}, or with
    {1, 2, 4} at address 2 *)
Definition store_123 : gmap addr (static_vector Z) :=
  {[ 1%positive := sample_123 ]}.

Definition store_123_raw : gmap addr (static_vector Z) :=
  {[ 1%positive := sample_123; 2%positive := raw_storage ]}.

Definition store_123_9 : gmap addr (static_vector Z) :=
  {[ 1%positive := sample_123; 2%positive := sample_9 ]}.

Definition store_123_124 : gmap addr (static_vector Z) :=
  {[ 1%positive := sample_123; 2%positive := sample_124 ]}.

Ltac concrete_holds :=
  split;
  [ reflexivity
  | intros k x Hk;
    repeat (destruct k as [|k]; [injection Hk as <-; reflexivity|]);
    discriminate Hk ].

(** * Running the primitives *)

Section primitives.

Context {T : Type} `{Element T}.

Abbreviation static_vector := (static_vector T).
Abbreviation M := (M T).

Implicit Types (O : gmap addr static_vector) (tr : list (event T)).
Implicit Types (s : static_vector) (this other : addr) (i n : Z).

Lemma run_bind {A B} (m : M A) (k : A → M B) (w : world T) :
  (m ≫= k) w =
    match m w with
    | (Ok a, w') => k a w'
    | (Throw e, w') => (Throw e, w')
    | (Undefined, w') => (Undefined, w')
    end.
Proof. reflexivity. Qed.

Lemma run_bind_ok {A B} (m : M A) (k : A → M B) (w w' : world T) a :
  m w = (Ok a, w') → (m ≫= k) w = k a w'.
Proof. intros Hm. rewrite run_bind, Hm. reflexivity. Qed.

Lemma run_bind_throw {A B} (m : M A) (k : A → M B) (w w' : world T) e :
  m w = (Throw e, w') → (m ≫= k) w = (Throw e, w').
Proof. intros Hm. rewrite run_bind, Hm. reflexivity. Qed.

Lemma run_ret {A} (a : A) (w : world T) : (ret a : M A) w = (Ok a, w).
Proof. reflexivity. Qed.

Lemma load_ok O tr this s :
  O !! this = Some s → load this (World O tr) = (Ok s, World O tr).
Proof. intros Hs. unfold load. simpl. rewrite Hs. reflexivity. Qed.

Lemma set_curr_size_ok O tr this s n :
  O !! this = Some s →
  set_curr_size this n (World O tr)
  = (Ok tt, World (<[this := StaticVector (buffer s) n]> O) tr).
Proof.
  intros Hs. unfold set_curr_size.
  rewrite (run_bind_ok _ _ _ _ _ (load_ok _ _ _ _ Hs)). reflexivity.
Qed.

Lemma set_slot_ok O tr this s i c :
  O !! this = Some s →
  set_slot this i c (World O tr)
  = (Ok tt, World (<[this := StaticVector (partial_alter (λ _, c) i (buffer s))
                                           (curr_size s)]> O) tr).
Proof.
  intros Hs. unfold set_slot.
  rewrite (run_bind_ok _ _ _ _ _ (load_ok _ _ _ _ Hs)). reflexivity.
Qed.

Lemma peek_ok O tr this s i :
  O !! this = Some s →
  peek (this, i) (World O tr) = (Ok (buffer s !! i), World O tr).
Proof.
  intros Hs. unfold peek. cbn [fst snd].
  rewrite (run_bind_ok _ _ _ _ _ (load_ok _ _ _ _ Hs)). reflexivity.
Qed.

Lemma deref_ok O tr this s i x :
  O !! this = Some s → buffer s !! i = Some x →
  deref (this, i) (World O tr) = (Ok x, World O tr).
Proof.
  intros Hs Hx. unfold deref.
  rewrite (run_bind_ok _ _ _ _ _ (peek_ok _ tr _ _ i Hs)), Hx. reflexivity.
Qed.

Lemma placement_new_ok O tr this s i x :
  O !! this = Some s →
  placement_new (this, i) (Some x) (World O tr)
  = (Ok tt, World (<[this := StaticVector (<[i := x]> (buffer s)) (curr_size s)]> O)
                    (tr ++ [Construct this i x])).
Proof.
  intros Hs. unfold placement_new. cbn [fst snd].
  rewrite (run_bind_ok _ _ _ _ _ (set_slot_ok _ tr _ _ i (Some x) Hs)). reflexivity.
Qed.

Lemma destroy_at_ok O tr this s i :
  O !! this = Some s →
  destroy_at (this, i) (World O tr)
  = (Ok tt, World (<[this := StaticVector (delete i (buffer s)) (curr_size s)]> O)
                    (tr ++ [Destroy this i (buffer s !! i)])).
Proof.
  intros Hs. unfold destroy_at.
  rewrite (run_bind_ok _ _ _ _ _ (peek_ok _ tr _ _ i Hs)). cbn [fst snd].
  rewrite (run_bind_ok _ _ (World O tr) (World O (tr ++ [Destroy this i (buffer s !! i)])) tt)
    by reflexivity.
  rewrite (set_slot_ok _ _ _ s) by exact Hs. reflexivity.
Qed.

(** ** Appending elements *)

Lemma to_size_t_small z : 0 ≤ z < SIZE_MODULUS → to_size_t z = z.
Proof. intros Hz. unfold to_size_t. apply Z.mod_small. exact Hz. Qed.

Lemma internal_append_ok O tr this s (made : option T) x :
  O !! this = Some s → made = Some x →
  (s ← load this;
   placement_new (this, curr_size s) made;;
   s ← load this;
   set_curr_size this (to_size_t (curr_size s + 1))) (World O tr)
  = (Ok tt, World (<[this := StaticVector (<[curr_size s := x]> (buffer s))
                                          (to_size_t (curr_size s + 1))]> O)
                  (tr ++ [Construct this (curr_size s) x])).
Proof.
  intros Hs ->.
  rewrite (run_bind_ok _ _ _ _ _ (load_ok _ _ _ _ Hs)).
  rewrite (run_bind_ok _ _ _ _ _ (placement_new_ok _ tr _ _ (curr_size s) x Hs)).
  set (s1 := StaticVector (<[curr_size s := x]> (buffer s)) (curr_size s)).
  assert (H1 : <[this := s1]> O !! this = Some s1) by apply lookup_insert_eq.
  rewrite (run_bind_ok _ _ _ _ _ (load_ok _ _ _ _ H1)).
  rewrite (set_curr_size_ok _ _ _ _ _ H1).
  rewrite insert_insert_eq. reflexivity.
Qed.

Lemma internal_append_throw O tr this s (made : option T) :
  O !! this = Some s → made = None →
  (s ← load this;
   placement_new (this, curr_size s) made;;
   s ← load this;
   set_curr_size this (to_size_t (curr_size s + 1))) (World O tr)
  = (Throw element_exception, World O tr).
Proof.
  intros Hs ->.
  rewrite (run_bind_ok _ _ _ _ _ (load_ok _ _ _ _ Hs)). reflexivity.
Qed.

Lemma pb_internal_ok O tr this s x y :
  O !! this = Some s → copy_construct x = Some y →
  pb_internal this x (World O tr)
  = (Ok tt, World (<[this := StaticVector (<[curr_size s := y]> (buffer s))
                                          (to_size_t (curr_size s + 1))]> O)
                  (tr ++ [Construct this (curr_size s) y])).
Proof. intros Hs Hy. exact (internal_append_ok _ _ _ _ _ _ Hs Hy). Qed.

Lemma pb_internal_throw O tr this s x :
  O !! this = Some s → copy_construct x = None →
  pb_internal this x (World O tr) = (Throw element_exception, World O tr).
Proof. intros Hs Hy. exact (internal_append_throw _ _ _ _ _ Hs Hy). Qed.

Lemma for_each_app {A} (l1 l2 : list A) (body : A → M unit) (w : world T) :
  for_each (l1 ++ l2) body w = (for_each l1 body;; for_each l2 body) w.
Proof.
  revert w. induction l1 as [|a l1 IH]; intros w.
  - reflexivity.
  - cbn [app for_each]. rewrite !run_bind.
    destruct (body a w) as [[u|e|] w1]; [|reflexivity..].
    rewrite IH, run_bind. reflexivity.
Qed.

Lemma place_lookup (ys : list T) : ∀ n (buf : gmap Z T) i,
  place n ys buf !! i
  = if decide (n ≤ i < n + Z.of_nat (length ys))
    then ys !! Z.to_nat (i - n) else buf !! i.
Proof.
  induction ys as [|y ys IH]; intros n buf i; cbn [place length].
  - case_decide; [lia | reflexivity].
  - rewrite IH. repeat case_decide; try lia.
    + replace (Z.to_nat (i - n)) with (S (Z.to_nat (i - (n + 1)))) by lia.
      reflexivity.
    + assert (i = n) as -> by lia. rewrite lookup_insert_eq.
      replace (Z.to_nat (n - n)) with 0%nat by lia. reflexivity.
    + rewrite lookup_insert_ne by lia. reflexivity.
Qed.

(** A loop whose body appends one element per iteration: [elem a x] says
    that iteration [a] appends a copy of [x], as long as the store
    satisfies [Inv], which an update of [this] does not break. *)
Section append_loop.

Context {A : Type} (this : addr) (body : A → M unit).
Context (elem : A → T → Prop) (Inv : gmap addr static_vector → Prop).
Hypothesis Inv_insert : ∀ O s, Inv O → Inv (<[this := s]> O).
Hypothesis body_appends : ∀ a x O tr,
  elem a x → Inv O → body a (World O tr) = pb_internal this x (World O tr).

Lemma append_loop_ok l xs ys : ∀ O tr s,
  Forall2 elem l xs →
  Forall2 (λ x y, copy_construct x = Some y) xs ys →
  Inv O → O !! this = Some s →
  0 ≤ curr_size s → curr_size s + Z.of_nat (length ys) < SIZE_MODULUS →
  for_each l body (World O tr)
  = (Ok tt, World (<[this := StaticVector (place (curr_size s) ys (buffer s))
                                          (curr_size s + Z.of_nat (length ys))]> O)
                  (tr ++ constructions this (curr_size s) ys)).
Proof.
  intros O tr s Hl. revert ys O tr s.
  induction Hl as [|a x l xs Hax Hl IH]; intros ys O tr s Hys HI Hs Hn Hlen.
  - inversion Hys; subst. cbn [for_each place constructions length].
    rewrite run_ret, app_nil_r, Z.add_0_r.
    destruct s as [buf n]. cbn [buffer curr_size].
    rewrite insert_id by exact Hs. reflexivity.
  - inversion Hys as [|x' y xs' ys' Hy Hys']; subst.
    cbn [for_each place constructions length] in *.
    rewrite run_bind, (body_appends a x) by assumption.
    rewrite (pb_internal_ok _ _ _ _ _ _ Hs Hy).
    rewrite to_size_t_small by lia.
    rewrite (IH ys' _ _ (StaticVector (<[curr_size s := y]> (buffer s)) (curr_size s + 1)));
      [| assumption | by apply Inv_insert | apply lookup_insert_eq
       | cbn [curr_size]; lia | cbn [curr_size]; lia].
    cbn [buffer curr_size]. rewrite insert_insert_eq, <- app_assoc.
    do 4 f_equal. lia.
Qed.

Lemma append_loop_throw l1 a l2 xs ys x O tr s :
  Forall2 elem l1 xs →
  Forall2 (λ x y, copy_construct x = Some y) xs ys →
  elem a x → copy_construct x = None →
  Inv O → O !! this = Some s →
  0 ≤ curr_size s → curr_size s + Z.of_nat (length ys) < SIZE_MODULUS →
  for_each (l1 ++ a :: l2) body (World O tr)
  = (Throw element_exception,
     World (<[this := StaticVector (place (curr_size s) ys (buffer s))
                                   (curr_size s + Z.of_nat (length ys))]> O)
           (tr ++ constructions this (curr_size s) ys)).
Proof.
  intros Hl Hys Hax Hx HI Hs Hn Hlen.
  rewrite for_each_app.
  rewrite (run_bind_ok _ _ _ _ _ (append_loop_ok _ _ _ _ tr _ Hl Hys HI Hs Hn Hlen)).
  cbn [for_each]. rewrite run_bind, (body_appends a x); [| assumption | by apply Inv_insert].
  erewrite pb_internal_throw; [reflexivity | apply lookup_insert_eq | assumption].
Qed.

End append_loop.

(** ** Destroying elements *)

Lemma wipe_lookup slots : ∀ (buf : gmap Z T) j,
  wipe slots buf !! j = if decide (j ∈ slots) then None else buf !! j.
Proof.
  induction slots as [|k slots IH]; intros buf j; cbn [wipe].
  - case_decide as Hj; [by apply elem_of_nil in Hj | reflexivity].
  - rewrite IH. repeat case_decide; try reflexivity.
    + exfalso. set_solver.
    + apply elem_of_cons in H1 as [->|?]; [apply lookup_delete_eq | done].
    + apply lookup_delete_ne. set_solver.
Qed.

Lemma destructions_NoDup this slots : ∀ buf : gmap Z T,
  NoDup slots →
  destructions this slots buf = (λ j, Destroy this j (buf !! j)) <$> slots.
Proof.
  induction slots as [|k slots IH]; intros buf Hnd; cbn [destructions fmap list_fmap].
  - reflexivity.
  - pose proof (NoDup_cons_1_1 _ _ Hnd) as Hk. apply NoDup_cons_1_2 in Hnd.
    rewrite IH by exact Hnd. f_equal.
    apply list_fmap_ext. intros _ j Hj%list_elem_of_lookup_2.
    rewrite lookup_delete_ne; [reflexivity | set_solver].
Qed.

Lemma destroy_loop_ok this (slot_of : Z → Z → Z) idxs : ∀ O tr s,
  O !! this = Some s →
  for_each idxs (λ i,
    s ← load this;
    destroy_at (ptr_add (cleaned_data_ptr this 0) (slot_of (curr_size s) i))) (World O tr)
  = (Ok tt, World (<[this := StaticVector (wipe (slot_of (curr_size s) <$> idxs) (buffer s))
                                          (curr_size s)]> O)
                  (tr ++ destructions this (slot_of (curr_size s) <$> idxs) (buffer s))).
Proof.
  induction idxs as [|i idxs IH]; intros O tr s Hs;
    cbn [for_each fmap list_fmap wipe destructions].
  - rewrite run_ret, app_nil_r. destruct s. cbn [buffer curr_size].
    rewrite insert_id by exact Hs. reflexivity.
  - rewrite run_bind. rewrite (run_bind_ok _ _ _ _ _ (load_ok _ _ _ _ Hs)).
    change (ptr_add (cleaned_data_ptr this 0) (slot_of (curr_size s) i))
      with (this, slot_of (curr_size s) i).
    rewrite (destroy_at_ok _ _ _ _ _ Hs).
    rewrite (IH _ _ (StaticVector (delete (slot_of (curr_size s) i) (buffer s)) (curr_size s)))
      by apply lookup_insert_eq.
    cbn [buffer curr_size]. rewrite insert_insert_eq, <- app_assoc. reflexivity.
Qed.

Lemma descending_slots n :
  0 ≤ n < SIZE_MODULUS →
  (λ i, to_size_t (to_size_t (n - 1) - i)) <$> seqZ 0 n = reverse (seqZ 0 n).
Proof.
  intros Hn. apply list_eq. intros k.
  rewrite list_lookup_fmap.
  destruct (decide (Z.of_nat k < n)) as [Hk|Hk].
  - rewrite lookup_seqZ_lt by lia. cbn [fmap option_fmap option_map].
    rewrite reverse_lookup by (rewrite length_seqZ; lia).
    rewrite length_seqZ, lookup_seqZ_lt by lia.
    rewrite !to_size_t_small; [f_equal; lia | lia |].
    rewrite to_size_t_small by lia. lia.
  - rewrite lookup_seqZ_ge by lia.
    rewrite lookup_ge_None_2; [reflexivity|].
    rewrite length_reverse, length_seqZ. lia.
Qed.

Lemma clear_elements_ok O tr this s :
  O !! this = Some s → 0 ≤ curr_size s < SIZE_MODULUS →
  clear_elements this (World O tr)
  = (Ok tt, World (<[this := StaticVector (wipe (reverse (seqZ 0 (curr_size s))) (buffer s)) 0]> O)
                  (tr ++ destructions this (reverse (seqZ 0 (curr_size s))) (buffer s))).
Proof.
  intros Hs Hn. unfold clear_elements. cbv zeta.
  rewrite (run_bind_ok _ _ _ _ _ (load_ok _ _ _ _ Hs)).
  rewrite (run_bind_ok _ _ _ _ _
    (destroy_loop_ok this (λ m i, to_size_t (to_size_t (m - 1) - i)) _ _ tr _ Hs)).
  rewrite descending_slots by exact Hn.
  rewrite (set_curr_size_ok _ _ _ _ _ (lookup_insert_eq _ _ _)).
  cbn [buffer]. rewrite insert_insert_eq. reflexivity.
Qed.

Lemma destroyed_seqZ this (buf : gmap Z T) ys : ∀ n,
  (∀ k y, ys !! k = Some y → buf !! (n + Z.of_nat k) = Some y) →
  (λ j, Destroy this j (buf !! j)) <$> seqZ n (Z.of_nat (length ys))
  = destroyed this n ys.
Proof.
  induction ys as [|y ys IH]; intros n Hbuf; cbn [length destroyed].
  - reflexivity.
  - rewrite seqZ_cons by lia. cbn [fmap list_fmap]. f_equal.
    + f_equal. rewrite <- (Hbuf 0%nat y eq_refl). f_equal. lia.
    + replace (Z.pred (Z.of_nat (S (length ys)))) with (Z.of_nat (length ys)) by lia.
      replace (Z.succ n) with (n + 1) by lia.
      apply IH. intros k y' Hk. rewrite <- (Hbuf (S k) y' Hk). f_equal. lia.
Qed.

Lemma destructions_descending this (buf : gmap Z T) ys :
  (∀ k y, ys !! k = Some y → buf !! Z.of_nat k = Some y) →
  destructions this (reverse (seqZ 0 (Z.of_nat (length ys)))) buf
  = reverse (destroyed this 0 ys).
Proof.
  intros Hbuf.
  rewrite destructions_NoDup by (rewrite reverse_Permutation; apply NoDup_seqZ).
  rewrite fmap_reverse. f_equal. apply destroyed_seqZ. exact Hbuf.
Qed.

(** ** Exchanging slots *)

Lemma graft_lookup slots (from : gmap Z T) : ∀ into j,
  graft slots from into !! j = if decide (j ∈ slots) then from !! j else into !! j.
Proof.
  induction slots as [|k slots IH]; intros into j; cbn [graft].
  - case_decide as Hj; [by apply elem_of_nil in Hj | reflexivity].
  - rewrite IH. repeat case_decide; try reflexivity.
    + exfalso. set_solver.
    + apply elem_of_cons in H1 as [->|?]; [apply lookup_partial_alter_eq | done].
    + apply lookup_partial_alter_ne. set_solver.
Qed.

Lemma graft_ext slots (from from' into : gmap Z T) :
  (∀ j, j ∈ slots → from !! j = from' !! j) →
  graft slots from into = graft slots from' into.
Proof.
  intros Hagree. apply map_eq. intros j. rewrite !graft_lookup.
  case_decide; [by apply Hagree | reflexivity].
Qed.

Lemma insert_pair_twice O this other (x x' y y' : static_vector) :
  this ≠ other →
  <[other := y']> (<[this := x']> (<[other := y]> (<[this := x]> O)))
  = <[other := y']> (<[this := x']> O).
Proof.
  intros Hne. apply map_eq. intros a.
  rewrite !lookup_insert. repeat case_decide; congruence.
Qed.

Lemma swap_loop_ok this other slots : ∀ O tr a b,
  this ≠ other → NoDup slots →
  O !! this = Some a → O !! other = Some b →
  for_each slots (λ k,
    iter_swap (ptr_add (this, 0) k) (ptr_add (other, 0) k)) (World O tr)
  = (Ok tt, World (<[other := StaticVector (graft slots (buffer a) (buffer b)) (curr_size b)]>
                  (<[this := StaticVector (graft slots (buffer b) (buffer a)) (curr_size a)]> O))
                  tr).
Proof.
  induction slots as [|k slots IH]; intros O tr a b Hne Hnd Ha Hb;
    cbn [for_each graft].
  - rewrite run_ret. destruct a, b. cbn [buffer curr_size].
    rewrite (insert_id _ this) by exact Ha. rewrite insert_id by exact Hb. reflexivity.
  - pose proof (NoDup_cons_1_1 _ _ Hnd) as Hk. apply NoDup_cons_1_2 in Hnd.
    rewrite run_bind. unfold iter_swap at 1.
    change (ptr_add (this, 0) k) with (this, k).
    change (ptr_add (other, 0) k) with (other, k). cbn [fst snd].
    rewrite (run_bind_ok _ _ _ _ _ (peek_ok _ tr _ _ k Ha)).
    rewrite (run_bind_ok _ _ _ _ _ (peek_ok _ tr _ _ k Hb)).
    rewrite (run_bind_ok _ _ _ _ _ (set_slot_ok _ tr _ _ k (buffer b !! k) Ha)).
    rewrite (set_slot_ok _ _ other b) by (rewrite lookup_insert_ne; done).
    set (a1 := StaticVector (partial_alter (λ _, buffer b !! k) k (buffer a)) (curr_size a)).
    set (b1 := StaticVector (partial_alter (λ _, buffer a !! k) k (buffer b)) (curr_size b)).
    rewrite (IH _ _ a1 b1 Hne Hnd);
      [| rewrite lookup_insert_ne by done; apply lookup_insert_eq
       | apply lookup_insert_eq].
    rewrite insert_pair_twice by exact Hne. subst a1 b1. cbn [buffer curr_size].
    rewrite (graft_ext slots (partial_alter _ k (buffer a)) (buffer a)),
            (graft_ext slots (partial_alter _ k (buffer b)) (buffer b));
      [reflexivity | |];
      intros j Hj; rewrite lookup_partial_alter_ne; (reflexivity || set_solver).
Qed.

Lemma swap_ok O tr this other a b :
  this ≠ other → O !! this = Some a → O !! other = Some b →
  swap this other (World O tr)
  = (Ok tt,
     World (<[other := StaticVector (graft (seqZ 0 (curr_size a)) (buffer a) (buffer b))
                                    (curr_size a)]>
           (<[this := StaticVector (graft (seqZ 0 (curr_size a)) (buffer b) (buffer a))
                                   (curr_size b)]> O))
           tr).
Proof.
  intros Hne Ha Hb. unfold swap, begin, end_.
  rewrite (run_bind_ok _ _ _ _ _ (run_ret _ _)).
  rewrite run_bind, (run_bind_ok _ _ _ _ _ (load_ok _ _ _ _ Ha)), run_ret.
  rewrite (run_bind_ok _ _ _ _ _ (run_ret _ _)).
  unfold swap_ranges.
  change (cleaned_data_ptr this (curr_size a)).2 with (0 + curr_size a).
  change (cleaned_data_ptr this 0).2 with 0.
  change (cleaned_data_ptr this 0) with ((this, 0) : pointer).
  change (cleaned_data_ptr other 0) with ((other, 0) : pointer).
  rewrite Z.add_0_l, Z.sub_0_r.
  rewrite (run_bind_ok _ _ _ _ _
    (swap_loop_ok this other _ _ tr a b Hne (NoDup_seqZ _ _) Ha Hb)).
  set (a1 := StaticVector (graft _ (buffer b) (buffer a)) _).
  set (b1 := StaticVector (graft _ (buffer a) (buffer b)) _).
  assert (Ha1 : <[other := b1]> (<[this := a1]> O) !! this = Some a1).
  { rewrite lookup_insert_ne by done. apply lookup_insert_eq. }
  assert (Hb1 : <[other := b1]> (<[this := a1]> O) !! other = Some b1)
    by apply lookup_insert_eq.
  rewrite (run_bind_ok _ _ _ _ _ (load_ok _ _ _ _ Ha1)).
  rewrite (run_bind_ok _ _ _ _ _ (load_ok _ _ _ _ Hb1)).
  rewrite (run_bind_ok _ _ _ _ _ (set_curr_size_ok _ _ _ _ _ Ha1)).
  rewrite (set_curr_size_ok _ _ other b1)
    by (rewrite lookup_insert_ne by done; apply lookup_insert_eq).
  subst a1 b1. cbn [buffer curr_size].
  f_equal. f_equal. apply map_eq. intros c.
  rewrite !lookup_insert. repeat case_decide; congruence.
Qed.

(** ** Reading elements *)

Lemma collect_ok O tr this s xs : ∀ n,
  O !! this = Some s →
  (∀ k x, xs !! k = Some x → buffer s !! (n + Z.of_nat k) = Some x) →
  collect (seqZ n (Z.of_nat (length xs))) (this, 0) (World O tr)
  = (Ok xs, World O tr).
Proof.
  induction xs as [|x xs IH]; intros n Hs Hbuf; cbn [length].
  - reflexivity.
  - rewrite seqZ_cons by lia. cbn [collect].
    change (ptr_add (this, 0) n) with (this, n).
    rewrite (run_bind_ok _ _ _ _ _ (deref_ok _ tr _ _ n x Hs ltac:(
      rewrite <- (Hbuf 0%nat x eq_refl); f_equal; lia))).
    replace (Z.pred (Z.of_nat (S (length xs)))) with (Z.of_nat (length xs)) by lia.
    rewrite (run_bind_ok _ _ _ _ _ (IH (Z.succ n) Hs ltac:(
      intros k y Hk; rewrite <- (Hbuf (S k) y Hk); f_equal; lia))).
    reflexivity.
Qed.

Lemma iterate_ok O tr this s xs :
  O !! this = Some s → holds s xs →
  iterate this (World O tr) = (Ok xs, World O tr).
Proof.
  intros Hs [Hn Hbuf]. unfold iterate, begin, end_.
  rewrite (run_bind_ok _ _ _ _ _ (run_ret _ _)).
  rewrite run_bind, (run_bind_ok _ _ _ _ _ (load_ok _ _ _ _ Hs)), run_ret.
  change (cleaned_data_ptr this (curr_size s)).2 with (0 + curr_size s).
  change (cleaned_data_ptr this 0).2 with 0.
  change (cleaned_data_ptr this 0) with ((this, 0) : pointer).
  rewrite Z.add_0_l, Z.sub_0_r, Hn.
  apply (collect_ok _ _ _ s); [exact Hs|]. intros k x Hk. rewrite Z.add_0_l. by apply Hbuf.
Qed.

End primitives.

(** * Properties *)

Section properties.

Context {T : Type} `{Element T}.
Variable N : Z.
Hypothesis N_range : 0 ≤ N < SIZE_MODULUS.

Abbreviation static_vector := (static_vector T).
Abbreviation M := (M T).

Implicit Types (O : gmap addr static_vector) (tr : list (event T)).
Implicit Types (s : static_vector) (this other : addr).

Lemma place_holds ys (buf : gmap Z T) :
  holds (StaticVector (place 0 ys buf) (0 + Z.of_nat (length ys))) ys.
Proof.
  split; cbn [buffer curr_size]; [lia|].
  intros k y Hk. rewrite place_lookup.
  pose proof (lookup_lt_Some _ _ _ Hk).
  case_decide; [|lia]. rewrite <- Hk. f_equal. lia.
Qed.

Lemma validate_count_run count (w : world T) :
  validate_count N count w
  = if bool_decide (count > N) then (Throw bad_alloc, w) else (Ok tt, w).
Proof. unfold validate_count. by case_bool_decide. Qed.

Lemma static_vector_range_ok this (src ys : list T) O tr s0 :
  O !! this = Some s0 → distance src ≤ N →
  Forall2 (λ x y, copy_construct x = Some y) src ys →
  static_vector_range N this src (World O tr)
  = (Ok tt, World (<[this := StaticVector (place 0 ys (buffer s0))
                                          (0 + Z.of_nat (length ys))]> O)
                  (tr ++ constructions this 0 ys)).
Proof.
  intros Hs Hlen Hys. unfold static_vector_range, distance in *.
  pose proof (Forall2_length Hys) as Hl.
  rewrite (run_bind_ok _ _ _ _ _ (set_curr_size_ok _ _ _ _ 0 Hs)).
  rewrite run_bind, validate_count_run, to_size_t_small by lia.
  rewrite bool_decide_eq_false_2 by lia.
  rewrite (append_loop_ok this _ eq (λ _, True) ltac:(done) ltac:(by intros; subst)
             src src ys _ tr (StaticVector (buffer s0) 0));
    [ cbn [buffer curr_size]; by rewrite insert_insert_eq
    | by apply Forall_Forall2_diag, Forall_true | done | done | apply lookup_insert_eq
    | done | cbn [curr_size]; lia ].
Qed.

(** C3: constructing from a source sequence longer than the capacity fails
    with the capacity-exceeded condition ([std::bad_alloc]) before any
    element is constructed: the trace and the buffer are as they were.
    For a source that fits (and whose elements copy faithfully), construction
    succeeds and iterating from [begin()] to [end()] yields the source
    sequence, in order.  The constructor from a literal list does the
    same. *)
Theorem range_construction this (src : list T) O tr s0 :
  O !! this = Some s0 →
  distance src ≤ PTRDIFF_MAX →
  (distance src > N →
     static_vector_range N this src (World O tr)
     = (Throw bad_alloc, World (<[this := StaticVector (buffer s0) 0]> O) tr)
     ∧ static_vector_list N this src (World O tr)
       = (Throw bad_alloc, World (<[this := StaticVector (buffer s0) 0]> O) tr))
  ∧ (distance src ≤ N → Forall (λ x, copy_construct x = Some x) src →
     ∃ w', static_vector_range N this src (World O tr) = (Ok tt, w')
           ∧ static_vector_list N this src (World O tr) = (Ok tt, w')
           ∧ iterate this w' = (Ok src, w')).
Proof.
  intros Hs Hmax. split.
  - intros Hlen. unfold static_vector_list.
    enough (static_vector_range N this src (World O tr)
            = (Throw bad_alloc, World (<[this := StaticVector (buffer s0) 0]> O) tr))
      by (split; assumption).
    unfold static_vector_range.
    rewrite (run_bind_ok _ _ _ _ _ (set_curr_size_ok _ _ _ _ 0 Hs)).
    rewrite run_bind, validate_count_run.
    rewrite to_size_t_small by (unfold distance, PTRDIFF_MAX, SIZE_MODULUS in *; lia).
    rewrite bool_decide_eq_true_2 by lia. reflexivity.
  - intros Hlen Hcopy.
    assert (Hys : Forall2 (λ x y, copy_construct x = Some y) src src)
      by apply Forall_Forall2_diag, Hcopy.
    eexists. split; [|split].
    + apply (static_vector_range_ok _ _ _ _ _ _ Hs Hlen Hys).
    + apply (static_vector_range_ok _ _ _ _ _ _ Hs Hlen Hys).
    + eapply iterate_ok; [apply lookup_insert_eq | apply place_holds].
Qed.

(** C4: [at(i)] throws [std::out_of_range] exactly when [i >= size()];
    otherwise it returns the reference to slot [i], behind which is the
    live element at position [i].  For the capacity-4 container built from
    {10, 20, 30}, [at(5)] throws and [at(1)] refers to 20. *)
Theorem at_validated :
  (∀ this pos O tr s,
     O !! this = Some s →
     (at_ this pos (World O tr) = (Throw out_of_range, World O tr) ↔ pos >= curr_size s)
     ∧ (pos < curr_size s → at_ this pos (World O tr) = (Ok (this, pos), World O tr))
     ∧ (∀ xs x, holds s xs → 0 ≤ pos → xs !! Z.to_nat pos = Some x →
          (r ← at_ this pos; deref r) (World O tr) = (Ok x, World O tr)))
  ∧ (∃ w1 : world Z,
       static_vector_list 4 1%positive [10; 20; 30] one_object = (Ok tt, w1)
       ∧ at_ 1%positive 5 w1 = (Throw out_of_range, w1)
       ∧ (r ← at_ 1%positive 1; deref r) w1 = (Ok 20, w1)).
Proof.
  split.
  - intros this pos O tr s Hs.
    assert (Hat : at_ this pos (World O tr)
                  = if bool_decide (pos >= curr_size s)
                    then (Throw out_of_range, World O tr)
                    else (Ok (this, pos), World O tr)).
    { unfold at_, validate_index. rewrite !run_bind.
      rewrite (load_ok _ _ _ _ Hs). by case_bool_decide. }
    split; [|split].
    + rewrite Hat. case_bool_decide; split; (done || lia).
    + intros Hlt. rewrite Hat. by rewrite bool_decide_eq_false_2 by lia.
    + intros xs x [Hn Hbuf] Hpos Hx.
      pose proof (lookup_lt_Some _ _ _ Hx).
      rewrite run_bind, Hat, bool_decide_eq_false_2 by lia.
      apply (deref_ok _ _ _ s); [exact Hs|].
      rewrite <- (Hbuf _ _ Hx). f_equal. lia.
  - eexists. split; [vm_compute; reflexivity|].
    split; vm_compute; reflexivity.
Qed.

(** ** Appending at the end *)

Lemma validate_curr_size_run this O tr s :
  O !! this = Some s →
  validate_curr_size N this (World O tr)
  = if bool_decide (curr_size s > N)
    then (Throw length_error, World O tr) else (Ok tt, World O tr).
Proof.
  intros Hs. unfold validate_curr_size.
  rewrite (run_bind_ok _ _ _ _ _ (load_ok _ _ _ _ Hs)). by case_bool_decide.
Qed.

(** Below the capacity, [push_back] constructs the copy in slot [size()]
    and the size grows by one. *)
Lemma push_back_below_capacity this (v y : T) O tr s :
  O !! this = Some s → 0 ≤ curr_size s < N → copy_construct v = Some y →
  push_back N this v (World O tr)
  = (Ok tt, World (<[this := StaticVector (<[curr_size s := y]> (buffer s))
                                          (curr_size s + 1)]> O)
                  (tr ++ [Construct this (curr_size s) y])).
Proof.
  intros Hs Hn Hy. unfold push_back.
  rewrite run_bind, (validate_curr_size_run _ _ _ _ Hs).
  rewrite bool_decide_eq_false_2 by lia.
  rewrite (pb_internal_ok _ _ _ _ _ _ Hs Hy), to_size_t_small by lia. reflexivity.
Qed.

(** Only above the capacity is [push_back] rejected, with nothing changed. *)
Lemma push_back_rejected this (v : T) O tr s :
  O !! this = Some s → curr_size s > N →
  push_back N this v (World O tr) = (Throw length_error, World O tr).
Proof.
  intros Hs Hn. unfold push_back.
  rewrite run_bind, (validate_curr_size_run _ _ _ _ Hs).
  by rewrite bool_decide_eq_true_2 by lia.
Qed.

(** C10: from any state and for any value [v], [push_back(v)] and
    [emplace_back(v)] (for which the copy constructor of [T] is the one
    selected) have the same outcome and leave the same store, hence the
    same size and the same elements. *)
Theorem push_back_emplace_back_agree this (v : T) (w : world T) :
  push_back N this v w = emplace_back N copy_construct this v w.
Proof.
  unfold push_back, emplace_back. rewrite !run_bind.
  destruct (validate_curr_size N this w) as [[[]|e|] w1]; [|reflexivity..].
  unfold pb_internal, eb_internal. reflexivity.
Qed.

(** ** Copy construction and copy assignment *)

Lemma holds_slots s (xs : list T) :
  holds s xs →
  Forall2 (λ i x, buffer s !! i = Some x) (seqZ 0 (curr_size s)) xs.
Proof.
  intros [Hn Hbuf]. apply Forall2_same_length_lookup_2.
  - rewrite length_seqZ. lia.
  - intros k i x Hi Hx. apply lookup_seqZ in Hi as [-> _].
    rewrite Z.add_0_l. by apply Hbuf.
Qed.

Lemma copy_loop_body this other (o : static_vector) :
  ∀ i x O tr,
    buffer o !! i = Some x → O !! other = Some o →
    (r ← subscript other i; x ← deref r; pb_internal this x) (World O tr)
    = pb_internal this x (World O tr).
Proof.
  intros i x O tr Hx Ho. unfold subscript.
  rewrite (run_bind_ok _ _ _ _ _ (run_ret _ _)).
  change (cleaned_data_ptr other i) with (other, i).
  rewrite (run_bind_ok _ _ _ _ _ (deref_ok _ tr _ _ i x Ho Hx)). reflexivity.
Qed.

Lemma static_vector_copy_ok this other O tr s0 o (xs ys : list T) :
  this ≠ other → O !! this = Some s0 → O !! other = Some o →
  holds o xs → curr_size o < SIZE_MODULUS →
  Forall2 (λ x y, copy_construct x = Some y) xs ys →
  static_vector_copy this other (World O tr)
  = (Ok tt, World (<[this := StaticVector (place 0 ys (buffer s0))
                                          (0 + Z.of_nat (length ys))]> O)
                  (tr ++ constructions this 0 ys)).
Proof.
  intros Hne Hs Ho Hxs Hn Hys. unfold static_vector_copy.
  pose proof (Forall2_length Hys) as Hl. pose proof Hxs as [Hsz _].
  rewrite (run_bind_ok _ _ _ _ _ (set_curr_size_ok _ _ _ _ 0 Hs)).
  unfold try_catch_rethrow.
  assert (Ho' : <[this := StaticVector (buffer s0) 0]> O !! other = Some o)
    by (rewrite lookup_insert_ne by done; exact Ho).
  rewrite (run_bind_ok _ _ _ _ _ (load_ok _ _ _ _ Ho')).
  rewrite (append_loop_ok this _ (λ i x, buffer o !! i = Some x)
             (λ O, O !! other = Some o)
             ltac:(intros ? ? ?; cbv beta in *; by rewrite lookup_insert_ne)
             (copy_loop_body this other o)
             _ xs ys _ tr (StaticVector (buffer s0) 0));
    [ cbn [buffer curr_size]; by rewrite insert_insert_eq
    | by apply holds_slots | done | done | apply lookup_insert_eq
    | done | cbn [curr_size]; lia ].
Qed.

Lemma wipe_placed (ys : list T) :
  wipe (reverse (seqZ 0 (0 + Z.of_nat (length ys)))) (place 0 ys ∅) = ∅.
Proof.
  apply map_eq. intros j. rewrite wipe_lookup, place_lookup, lookup_empty.
  repeat case_decide; try reflexivity.
  exfalso. apply H0. rewrite elem_of_reverse, elem_of_seqZ. lia.
Qed.

Lemma static_vector_copy_throw this other O tr o (xs ys rest : list T) x :
  this ≠ other → O !! this = Some (StaticVector ∅ 0) → O !! other = Some o →
  holds o (xs ++ x :: rest) → curr_size o < SIZE_MODULUS →
  Forall2 (λ x y, copy_construct x = Some y) xs ys →
  copy_construct x = None →
  static_vector_copy this other (World O tr)
  = (Throw element_exception,
     World O (tr ++ constructions this 0 ys ++ reverse (destroyed this 0 ys))).
Proof.
  intros Hne Hs Ho Hxs Hn Hys Hx. unfold static_vector_copy.
  pose proof (Forall2_length Hys) as Hl. pose proof Hxs as [Hsz _].
  rewrite length_app in Hsz. cbn [length] in Hsz.
  apply holds_slots, Forall2_app_inv_r in Hxs as (l1 & l2 & Hl1 & Hl2 & Hsplit).
  apply Forall2_cons_inv_r in Hl2 as (i & l2' & Hi & _ & ->).
  rewrite (run_bind_ok _ _ _ _ _ (set_curr_size_ok _ _ _ _ 0 Hs)).
  cbn [buffer]. rewrite insert_id by exact Hs.
  unfold try_catch_rethrow.
  rewrite (run_bind_ok _ _ _ _ _ (load_ok _ _ _ _ Ho)), Hsplit.
  rewrite (append_loop_throw this _ (λ i x, buffer o !! i = Some x)
             (λ O, O !! other = Some o)
             ltac:(intros ? ? ?; cbv beta in *; by rewrite lookup_insert_ne)
             (copy_loop_body this other o)
             l1 i l2' xs ys x _ tr (StaticVector ∅ 0));
    [| done | done | done | done | done | done | done | cbn [curr_size]; lia ].
  cbn [buffer curr_size].
  rewrite (clear_elements_ok _ _ _ _ (lookup_insert_eq _ _ _))
    by (cbn [curr_size]; lia).
  cbn [buffer curr_size].
  rewrite insert_insert_eq, wipe_placed, insert_id by exact Hs.
  rewrite Z.add_0_l, destructions_descending, <- app_assoc; [reflexivity|].
  intros k y Hk. rewrite place_lookup. pose proof (lookup_lt_Some _ _ _ Hk).
  case_decide; [|lia]. rewrite <- Hk. f_equal. lia.
Qed.

Lemma fresh_storage_unused O : O !! fresh (dom O) = None.
Proof. apply not_elem_of_dom, is_fresh. Qed.

(** C5: when the copy of an element throws (here the element [x], after
    the elements [xs] were copied to [ys]), copy construction destroys the
    copies made so far, last one first, and rethrows; the store is as it
    was, so the source is unmodified and the new object holds nothing.
    Copy assignment does this on its temporary, and the store, hence the
    source and the destination, are as they were. *)
Theorem copy_failure_unwinds other O tr b (xs ys rest : list T) x :
  O !! other = Some b →
  holds b (xs ++ x :: rest) → curr_size b < SIZE_MODULUS →
  Forall2 (λ x y, copy_construct x = Some y) xs ys →
  copy_construct x = None →
  (∀ this, this ≠ other → O !! this = Some (StaticVector ∅ 0) →
     static_vector_copy this other (World O tr)
     = (Throw element_exception,
        World O (tr ++ constructions this 0 ys ++ reverse (destroyed this 0 ys))))
  ∧ (∀ this,
       let tmp := fresh (dom O) in
       assign_copy this other (World O tr)
       = (Throw element_exception,
          World O (tr ++ constructions tmp 0 ys ++ reverse (destroyed tmp 0 ys)))).
Proof.
  intros Ho Hxs Hn Hys Hx. split.
  - intros this Hne Hs. by eapply static_vector_copy_throw.
  - intros this tmp. unfold assign_copy, automatic.
    pose proof (fresh_storage_unused O) as Htmp. fold tmp in Htmp.
    assert (Hne : tmp ≠ other) by congruence.
    rewrite run_bind. fold tmp. cbv zeta. rewrite run_bind.
    erewrite static_vector_copy_throw;
      [ | exact Hne | apply lookup_insert_eq
        | rewrite lookup_insert_ne by done; exact Ho
        | exact Hxs | exact Hn | exact Hys | exact Hx ].
    cbn [objs trace]. rewrite delete_insert_id by exact Htmp. reflexivity.
Qed.

Lemma assign_copy_ok this other O tr a b (xs ys : list T) :
  O !! this = Some a → O !! other = Some b →
  holds b xs → curr_size b < SIZE_MODULUS → 0 ≤ curr_size a < SIZE_MODULUS →
  Forall2 (λ x y, copy_construct x = Some y) xs ys →
  let tmp := fresh (dom O) in
  let k := 0 + Z.of_nat (length ys) in
  assign_copy this other (World O tr)
  = (Ok this,
     World (<[this := StaticVector (graft (seqZ 0 k) (place 0 ys ∅) (buffer a)) k]> O)
           (tr ++ constructions tmp 0 ys
               ++ destructions tmp (reverse (seqZ 0 (curr_size a)))
                    (graft (seqZ 0 k) (buffer a) (place 0 ys ∅)))).
Proof.
  intros Ha Hb Hxs Hnb Hna Hys tmp k. unfold assign_copy, automatic.
  pose proof (fresh_storage_unused O) as Htmp. fold tmp in Htmp.
  assert (Hto : tmp ≠ other) by congruence.
  assert (Htt : tmp ≠ this) by congruence.
  rewrite run_bind. fold tmp. cbv zeta. rewrite run_bind.
  erewrite static_vector_copy_ok;
    [ | exact Hto | apply lookup_insert_eq
      | rewrite lookup_insert_ne by done; exact Hb
      | exact Hxs | exact Hnb | exact Hys ].
  cbn [buffer]. fold k. rewrite insert_insert_eq, run_bind.
  erewrite swap_ok;
    [ | exact Htt | apply lookup_insert_eq
      | rewrite lookup_insert_ne by done; exact Ha ].
  cbn [buffer curr_size]. unfold destructor.
  erewrite clear_elements_ok;
    [ | rewrite lookup_insert_ne by done; apply lookup_insert_eq
      | cbn [curr_size]; exact Hna ].
  cbn [buffer curr_size objs trace]. rewrite run_ret, <- app_assoc.
  do 2 f_equal. apply map_eq. intros c.
  destruct (decide (c = tmp)) as [->|Hc].
  - rewrite lookup_delete_eq, lookup_insert_ne by done. by rewrite Htmp.
  - rewrite lookup_delete_ne by done.
    rewrite (lookup_insert_ne _ tmp c) by done.
    destruct (decide (c = this)) as [->|Hc'].
    + by rewrite !lookup_insert_eq.
    + by rewrite !(lookup_insert_ne _ _ c) by done.
Qed.

(** C9: copy-assigning a container to itself succeeds and leaves every
    object of the store, the container included, exactly as it was: the
    same size and the same elements.  (The elements are copied into a
    temporary, and the originals, exchanged into the temporary, are
    destroyed with it.) *)
Theorem self_assignment this O tr a (xs : list T) :
  O !! this = Some a →
  holds a xs → curr_size a < SIZE_MODULUS →
  Forall (λ x, copy_construct x = Some x) xs →
  let tmp := fresh (dom O) in
  assign_copy this this (World O tr)
  = (Ok this,
     World O (tr ++ constructions tmp 0 xs ++ reverse (destroyed tmp 0 xs))).
Proof.
  intros Ha Hxs Hn Hcopy tmp. pose proof Hxs as [Hsz Hbuf].
  rewrite (assign_copy_ok this this O tr a a xs xs Ha Ha Hxs Hn ltac:(lia)
             (Forall_Forall2_diag _ _ Hcopy)).
  fold tmp. rewrite Z.add_0_l, <- Hsz.
  assert (Hin : ∀ j, j ∈ seqZ 0 (curr_size a) ↔ 0 ≤ j < Z.of_nat (length xs))
    by (intros j; rewrite elem_of_seqZ; lia).
  f_equal. f_equal.
  - replace (StaticVector (graft (seqZ 0 (curr_size a)) (place 0 xs ∅) (buffer a))
                          (curr_size a)) with a; [by apply insert_id|].
    destruct a as [buf n]. cbn [buffer curr_size] in *. f_equal.
    apply map_eq. intros j. rewrite graft_lookup, place_lookup.
    repeat case_decide; try reflexivity; try (exfalso; rewrite Hin in *; lia).
    rewrite Z.sub_0_r.
    destruct (xs !! Z.to_nat j) as [x|] eqn:Hx.
    + rewrite <- (Hbuf _ _ Hx). f_equal. lia.
    + apply lookup_ge_None in Hx. lia.
  - do 2 f_equal. rewrite Hsz. apply destructions_descending.
    intros k x Hk. pose proof (lookup_lt_Some _ _ _ Hk).
    rewrite graft_lookup. case_decide as Hj; [by apply Hbuf|].
    exfalso. apply Hj. rewrite <- Hsz, Hin. lia.
Qed.

(** ** Move construction and swap *)

Lemma begin_run this (w : world T) : begin this w = (Ok (this, 0), w).
Proof. reflexivity. Qed.

Lemma end_run this O tr s :
  O !! this = Some s →
  end_ this (World O tr) = (Ok (this, curr_size s), World O tr).
Proof.
  intros Hs. unfold end_.
  rewrite (run_bind_ok _ _ _ _ _ (load_ok _ _ _ _ Hs)). reflexivity.
Qed.


Lemma static_vector_eq (s : static_vector) buf n :
  buffer s = buf → curr_size s = n → StaticVector buf n = s.
Proof. intros <- <-. by destruct s. Qed.

Lemma graft_self slots (buf : gmap Z T) : graft slots buf buf = buf.
Proof.
  apply map_eq. intros j. rewrite graft_lookup. by case_decide.
Qed.

Lemma swap_self_loop this slots : ∀ O tr s,
  O !! this = Some s →
  for_each slots (λ k,
    iter_swap (ptr_add (this, 0) k) (ptr_add (this, 0) k)) (World O tr)
  = (Ok tt, World O tr).
Proof.
  induction slots as [|k slots IH]; intros O tr s Hs; cbn [for_each].
  - reflexivity.
  - rewrite run_bind. unfold iter_swap at 1.
    change (ptr_add (this, 0) k) with (this, k). cbn [fst snd].
    rewrite (run_bind_ok _ _ _ _ _ (peek_ok _ tr _ _ k Hs)).
    rewrite (run_bind_ok _ _ _ _ _ (peek_ok _ tr _ _ k Hs)).
    rewrite (run_bind_ok _ _ _ _ _ (set_slot_ok _ tr _ _ k (buffer s !! k) Hs)).
    rewrite (set_slot_ok _ _ _ _ _ _ (lookup_insert_eq _ _ _)).
    cbn [buffer curr_size]. rewrite insert_insert_eq.
    replace (StaticVector _ (curr_size s)) with s.
    + rewrite insert_id by exact Hs. by apply (IH _ _ s).
    + destruct s as [buf n]. cbn [buffer curr_size]. f_equal.
      apply map_eq. intros j. destruct (decide (j = k)) as [->|Hj].
      * by rewrite !lookup_partial_alter_eq.
      * by rewrite !lookup_partial_alter_ne.
Qed.

Lemma swap_self_ok O tr this s :
  O !! this = Some s →
  swap this this (World O tr) = (Ok tt, World O tr).
Proof.
  intros Hs. unfold swap.
  rewrite (run_bind_ok _ _ _ _ _ (begin_run _ _)).
  rewrite (run_bind_ok _ _ _ _ _ (end_run _ _ _ _ Hs)).
  rewrite (run_bind_ok _ _ _ _ _ (begin_run _ _)).
  unfold swap_ranges.
  rewrite (run_bind_ok _ _ _ _ _ (swap_self_loop this _ _ tr s Hs)).
  rewrite (run_bind_ok _ _ _ _ _ (load_ok _ _ _ _ Hs)).
  rewrite (run_bind_ok _ _ _ _ _ (load_ok _ _ _ _ Hs)).
  rewrite (run_bind_ok _ _ _ _ _ (set_curr_size_ok _ _ _ _ _ Hs)).
  rewrite (set_curr_size_ok _ _ _ _ _ (lookup_insert_eq _ _ _)).
  cbn [buffer]. rewrite insert_insert_eq.
  destruct s as [buf n]. cbn [buffer curr_size]. by rewrite insert_id.
Qed.

(** C7, as the code has it: on two containers [a] and [b] (which may be
    the same one) with [a.size() <= b.size()], [swap(a, b)] exchanges the
    values of the corresponding elements at the indices below
    [min(a.size(), b.size())], the overlapping live range, leaves every
    other slot as it is, and then exchanges the two sizes.  Every exchange
    is between two constructed elements, and nothing is constructed or
    destroyed. *)
Theorem swap_within_overlap a b O tr sa sb (xs ys : list T) :
  O !! a = Some sa → O !! b = Some sb → holds sa xs → holds sb ys →
  (length xs ≤ length ys)%nat →
  let overlap := Z.min (curr_size sa) (curr_size sb) in
  ∃ sa' sb',
    swap_friend a b (World O tr) = (Ok tt, World (<[b := sb']> (<[a := sa']> O)) tr)
    ∧ (sa', sb') = swap_as_specified sa sb
    ∧ curr_size sa' = curr_size sb ∧ curr_size sb' = curr_size sa
    ∧ (∀ i, buffer sa' !! i
            = if decide (0 ≤ i < overlap) then buffer sb !! i else buffer sa !! i)
    ∧ (∀ i, buffer sb' !! i
            = if decide (0 ≤ i < overlap) then buffer sa !! i else buffer sb !! i)
    ∧ swappable_ranges (World O tr) (a, 0) (a, curr_size sa) (b, 0).
Proof.
  intros Ha Hb [Hna Hxs] [Hnb Hys] Hle overlap.
  assert (Hmin : overlap = curr_size sa) by (unfold overlap; lia).
  assert (Hin : ∀ i, i ∈ seqZ 0 overlap ↔ 0 ≤ i < overlap)
    by (intros i; rewrite elem_of_seqZ; lia).
  exists (StaticVector (graft (seqZ 0 overlap) (buffer sb) (buffer sa)) (curr_size sb)),
         (StaticVector (graft (seqZ 0 overlap) (buffer sa) (buffer sb)) (curr_size sa)).
  split; [|split; [reflexivity|split; [reflexivity|split; [reflexivity|]]]].
  - unfold swap_friend. rewrite Hmin. destruct (decide (a = b)) as [->|Hne].
    + assert (sa = sb) as -> by congruence.
      rewrite (swap_self_ok _ _ _ _ Ha), graft_self, insert_insert_eq.
      destruct sb as [buf n]. cbn [buffer curr_size]. by rewrite insert_id.
    + by rewrite (swap_ok _ _ _ _ _ _ Hne Ha Hb).
  - split; [|split].
    + intros i. cbn [buffer]. rewrite graft_lookup.
      repeat case_decide; (reflexivity || by rewrite Hin in * ).
    + intros i. cbn [buffer]. rewrite graft_lookup.
      repeat case_decide; (reflexivity || by rewrite Hin in * ).
    + intros k Hk. cbn [snd] in Hk.
      change (ptr_add (a, 0) k) with (a, k). change (ptr_add (b, 0) k) with (b, k).
      rewrite (peek_ok _ _ _ _ _ Ha), (peek_ok _ _ _ _ _ Hb).
      destruct (xs !! Z.to_nat k) as [x|] eqn:Hx; [|apply lookup_ge_None in Hx; lia].
      destruct (ys !! Z.to_nat k) as [y|] eqn:Hy; [|apply lookup_ge_None in Hy; lia].
      exists x, y. apply Hxs in Hx. apply Hys in Hy.
      rewrite Z2Nat.id in Hx, Hy by lia. by rewrite Hx, Hy.
Qed.

(** ** Equality *)

Lemma equal_from_ok O tr a b sa sb (xs : list T) : ∀ (ys : list T) n,
  O !! a = Some sa → O !! b = Some sb → length xs = length ys →
  (∀ k x, xs !! k = Some x → buffer sa !! (n + Z.of_nat k) = Some x) →
  (∀ k y, ys !! k = Some y → buffer sb !! (n + Z.of_nat k) = Some y) →
  equal_from (seqZ n (Z.of_nat (length xs))) (a, 0) (b, 0) (World O tr)
  = (Ok (all_equal xs ys), World O tr).
Proof.
  induction xs as [|x xs IH]; intros [|y ys] n Ha Hb Hlen Hxs Hys;
    cbn [length] in *; try discriminate.
  - reflexivity.
  - rewrite seqZ_cons by lia. cbn [equal_from all_equal].
    change (ptr_add (a, 0) n) with (a, n). change (ptr_add (b, 0) n) with (b, n).
    rewrite (run_bind_ok _ _ _ _ _ (deref_ok _ tr _ _ n x Ha ltac:(
      rewrite <- (Hxs 0%nat x eq_refl); f_equal; lia))).
    rewrite (run_bind_ok _ _ _ _ _ (deref_ok _ tr _ _ n y Hb ltac:(
      rewrite <- (Hys 0%nat y eq_refl); f_equal; lia))).
    destruct (elem_eq x y); [|reflexivity].
    replace (Z.pred (Z.of_nat (S (length xs)))) with (Z.of_nat (length xs)) by lia.
    apply IH; [done | done | lia | |].
    + intros k x' Hk. rewrite <- (Hxs (S k) x' Hk). f_equal. lia.
    + intros k y' Hk. rewrite <- (Hys (S k) y' Hk). f_equal. lia.
Qed.

Lemma all_equal_true (xs : list T) : ∀ ys : list T,
  length xs = length ys →
  all_equal xs ys = true
  ↔ ∀ k x y, xs !! k = Some x → ys !! k = Some y → elem_eq x y = true.
Proof.
  induction xs as [|x xs IH]; intros [|y ys] Hlen; cbn [length] in *;
    try discriminate.
  - split; [intros _ k x y Hk; by rewrite lookup_nil in Hk | done].
  - cbn [all_equal]. split.
    + destruct (elem_eq x y) eqn:Hxy; [|done]. intros Hrest [|k] x' y' Hx Hy.
      * cbn in Hx, Hy. congruence.
      * cbn in Hx, Hy. eapply IH; [|exact Hrest|exact Hx|exact Hy]. lia.
    + intros Hall. rewrite (Hall 0%nat x y eq_refl eq_refl).
      apply IH; [lia|]. intros k x' y' Hx Hy. exact (Hall (S k) x' y' Hx Hy).
Qed.

Lemma operator_eq_ok O tr a b sa sb (xs ys : list T) :
  O !! a = Some sa → O !! b = Some sb → holds sa xs → holds sb ys →
  operator_eq a b (World O tr)
  = (Ok (bool_decide (length xs = length ys) && all_equal xs ys), World O tr).
Proof.
  intros Ha Hb [Hna Hxs] [Hnb Hys]. unfold operator_eq, size, begin, end_.
  rewrite run_bind, (run_bind_ok _ _ _ _ _ (load_ok _ _ _ _ Ha)), run_ret.
  rewrite run_bind, (run_bind_ok _ _ _ _ _ (load_ok _ _ _ _ Hb)), run_ret.
  case_bool_decide as Hsz.
  - rewrite bool_decide_eq_true_2 by lia. cbn [andb].
    rewrite (run_bind_ok _ _ _ _ _ (run_ret _ _)).
    rewrite run_bind, (run_bind_ok _ _ _ _ _ (load_ok _ _ _ _ Ha)), run_ret.
    rewrite (run_bind_ok _ _ _ _ _ (run_ret _ _)).
    unfold std_equal.
    change (cleaned_data_ptr a (curr_size sa)).2 with (0 + curr_size sa).
    change (cleaned_data_ptr a 0).2 with 0.
    change (cleaned_data_ptr a 0) with ((a, 0) : pointer).
    change (cleaned_data_ptr b 0) with ((b, 0) : pointer).
    rewrite Z.add_0_l, Z.sub_0_r, Hna.
    apply (equal_from_ok _ _ _ _ sa sb); [done | done | lia | |].
    + intros k x Hk. rewrite Z.add_0_l. by apply Hxs.
    + intros k y Hk. rewrite Z.add_0_l. by apply Hys.
  - rewrite bool_decide_eq_false_2 by lia. reflexivity.
Qed.

Lemma equal_in_iff O tr a b sa sb (xs ys : list T) :
  O !! a = Some sa → O !! b = Some sb → holds sa xs → holds sb ys →
  equal_in (World O tr) a b
  ↔ length xs = length ys
    ∧ ∀ k x y, xs !! k = Some x → ys !! k = Some y → elem_eq x y = true.
Proof.
  intros Ha Hb Hxs Hys. unfold equal_in.
  rewrite (operator_eq_ok _ _ _ _ _ _ _ _ Ha Hb Hxs Hys).
  case_bool_decide as Hlen; cbn [andb].
  - rewrite <- (all_equal_true xs ys Hlen).
    split; [intros [= ->]; done | intros [_ ->]; done].
  - split; [discriminate | intros [? _]; done].
Qed.

(** C8: on two containers, [a == b] is true exactly when the sizes are
    equal and the elements at every position below the size are equal under
    [operator==] of [T].  When that operator is reflexive, symmetric or
    transitive, so is equality of containers, and two containers built from
    the same literal list are equal. *)
Theorem container_equality :
  (∀ a b O tr sa sb (xs ys : list T),
     O !! a = Some sa → O !! b = Some sb → holds sa xs → holds sb ys →
     ∃ r, operator_eq a b (World O tr) = (Ok r, World O tr)
          ∧ (r = true
             ↔ curr_size sa = curr_size sb
               ∧ ∀ i x y, 0 ≤ i < curr_size sa →
                   buffer sa !! i = Some x → buffer sb !! i = Some y →
                   elem_eq x y = true))
  ∧ ((∀ x : T, elem_eq x x = true) →
     ∀ a O tr sa (xs : list T),
       O !! a = Some sa → holds sa xs → equal_in (World O tr) a a)
  ∧ ((∀ x y : T, elem_eq x y = true → elem_eq y x = true) →
     ∀ a b O tr sa sb (xs ys : list T),
       O !! a = Some sa → O !! b = Some sb → holds sa xs → holds sb ys →
       equal_in (World O tr) a b → equal_in (World O tr) b a)
  ∧ ((∀ x y z : T, elem_eq x y = true → elem_eq y z = true → elem_eq x z = true) →
     ∀ a b c O tr sa sb sc (xs ys zs : list T),
       O !! a = Some sa → O !! b = Some sb → O !! c = Some sc →
       holds sa xs → holds sb ys → holds sc zs →
       equal_in (World O tr) a b → equal_in (World O tr) b c →
       equal_in (World O tr) a c)
  ∧ ((∀ x : T, elem_eq x x = true) →
     ∀ a b O tr sa0 sb0 (l ys : list T),
       a ≠ b → O !! a = Some sa0 → O !! b = Some sb0 →
       distance l ≤ N → Forall2 (λ x y, copy_construct x = Some y) l ys →
       ∃ w', (static_vector_list N a l;; static_vector_list N b l) (World O tr)
             = (Ok tt, w')
             ∧ equal_in w' a b).
Proof.
  split; [|split; [|split; [|split]]].
  - intros a b O tr sa sb xs ys Ha Hb Hxs Hys.
    eexists. split; [by apply (operator_eq_ok _ _ _ _ sa sb xs ys)|].
    pose proof (equal_in_iff O tr a b sa sb xs ys Ha Hb Hxs Hys) as Hiff.
    unfold equal_in in Hiff.
    rewrite (operator_eq_ok _ _ _ _ sa sb xs ys) in Hiff by done.
    destruct Hxs as [Hna Hxs], Hys as [Hnb Hys].
    etransitivity; [|etransitivity; [exact Hiff|]].
    { split; [by intros -> | by intros [= ->]]. }
    split.
    + intros [Hlen Hall]. split; [lia|]. intros i x y Hi Hx Hy.
      destruct (xs !! Z.to_nat i) as [x'|] eqn:Hx';
        [|apply lookup_ge_None in Hx'; lia].
      destruct (ys !! Z.to_nat i) as [y'|] eqn:Hy';
        [|apply lookup_ge_None in Hy'; lia].
      pose proof (Hxs _ _ Hx') as Hx2. pose proof (Hys _ _ Hy') as Hy2.
      rewrite Z2Nat.id in Hx2, Hy2 by lia.
      assert (x = x') as -> by congruence. assert (y = y') as -> by congruence.
      by eapply Hall.
    + intros [Hsz Hall]. split; [lia|]. intros k x y Hx Hy.
      pose proof (lookup_lt_Some _ _ _ Hx).
      apply (Hall (Z.of_nat k)); [lia | by apply Hxs | by apply Hys].
  - intros Hrefl a O tr sa xs Ha Hxs.
    apply (equal_in_iff _ _ _ _ sa sa xs xs); [done..|].
    split; [done|]. intros k x y Hx Hy. assert (x = y) as -> by congruence. apply Hrefl.
  - intros Hsym a b O tr sa sb xs ys Ha Hb Hxs Hys Hab.
    apply (equal_in_iff _ _ _ _ sa sb xs ys) in Hab as [Hlen Hall]; [|done..].
    apply (equal_in_iff _ _ _ _ sb sa ys xs); [done..|].
    split; [done|]. intros k y x Hy Hx. by eapply Hsym, Hall.
  - intros Htrans a b c O tr sa sb sc xs ys zs Ha Hb Hc Hxs Hys Hzs Hab Hbc.
    apply (equal_in_iff _ _ _ _ sa sb xs ys) in Hab as [Hlen1 Hall1]; [|done..].
    apply (equal_in_iff _ _ _ _ sb sc ys zs) in Hbc as [Hlen2 Hall2]; [|done..].
    apply (equal_in_iff _ _ _ _ sa sc xs zs); [done..|].
    split; [congruence|]. intros k x z Hx Hz.
    destruct (ys !! k) as [y|] eqn:Hy.
    + by eapply Htrans; [eapply Hall1 | eapply Hall2].
    + apply lookup_ge_None in Hy. apply lookup_lt_Some in Hx. lia.
  - intros Hrefl a b O tr sa0 sb0 l ys Hne Ha Hb Hlen Hys.
    eexists. split.
    + rewrite run_bind. unfold static_vector_list.
      rewrite (static_vector_range_ok _ _ _ _ _ _ Ha Hlen Hys).
      apply (static_vector_range_ok _ _ ys _ _ sb0); [|done..].
      rewrite lookup_insert_ne by done. exact Hb.
    + eapply equal_in_iff;
        [ rewrite lookup_insert_ne by done; apply lookup_insert_eq
        | apply lookup_insert_eq | apply place_holds | apply place_holds | ].
      split; [done|]. intros k x y Hx Hy. assert (x = y) as -> by congruence.
      apply Hrefl.
Qed.

End properties.

(** * Concrete runs *)

(** C1: a default-constructed container of capacity 1 accepts two
    [push_back]s; its [size()] is then 2 and its [capacity()] 1. *)
Theorem size_exceeds_capacity :
  ∃ w' : world Z,
    (static_vector_default 1%positive;;
     push_back 1 1%positive 7;;
     push_back 1 1%positive 8) one_object = (Ok tt, w')
    ∧ size 1%positive w' = (Ok 2, w')
    ∧ capacity 1 1%positive w' = (Ok 1, w').
Proof. eexists. repeat split; vm_compute; reflexivity. Qed.

(** C2: with capacity 3, after three [push_back]s the container is full
    ([size() == 3]); a fourth append, by copy, by move or in place, does
    not throw: it constructs the element in slot 3, past the buffer, and
    the size becomes 4.  Only the append after that one throws
    [std::length_error], leaving the state as it is. *)
Theorem push_back_at_capacity :
  (static_vector_default 1%positive;;
   push_back 3 1%positive 1;;
   push_back 3 1%positive 2;;
   push_back 3 1%positive 3) one_object = (Ok tt, full_of_3)
  ∧ size 1%positive full_of_3 = (Ok 3, full_of_3)
  ∧ capacity 3 1%positive full_of_3 = (Ok 3, full_of_3)
  ∧ push_back 3 1%positive 4 full_of_3 = (Ok tt, overfull_of_3)
  ∧ push_back_move 3 1%positive 4 full_of_3 = (Ok tt, overfull_of_3)
  ∧ emplace_back 3 copy_construct 1%positive 4 full_of_3 = (Ok tt, overfull_of_3)
  ∧ size 1%positive overfull_of_3 = (Ok 4, overfull_of_3)
  ∧ peek (1%positive, 3) overfull_of_3 = (Ok (Some 4), overfull_of_3)
  ∧ push_back 3 1%positive 5 overfull_of_3 = (Throw length_error, overfull_of_3).
Proof. repeat split; vm_compute; reflexivity. Qed.

(** C7, as stated, fails: with [a] built from {1, 2, 3} and [b] from {9}
    (capacity 4), [swap(a, b)] moves the element 2 of [a] into slot 1 of
    [b], a slot above [min(a.size(), b.size()) = 1], which the exchange
    over the overlapping range leaves empty. *)
Lemma swap_beyond_overlap :
  ∃ (w w' : world Z) (a b : static_vector Z),
    (static_vector_list 4 1%positive [1; 2; 3];;
     static_vector_list 4 2%positive [9]) two_objects = (Ok tt, w)
    ∧ objs w !! 1%positive = Some a ∧ objs w !! 2%positive = Some b
    ∧ swap_friend 1%positive 2%positive w = (Ok tt, w')
    ∧ peek (2%positive, 1) w' = (Ok (Some 2), w')
    ∧ buffer (swap_as_specified a b).2 !! 1 = None
    ∧ objs w' !! 2%positive ≠ Some (swap_as_specified a b).2.
Proof.
  eexists _, _, _, _.
  split; [vm_compute; reflexivity|].
  split; [vm_compute; reflexivity|].
  split; [vm_compute; reflexivity|].
  split; [vm_compute; reflexivity|].
  split; [vm_compute; reflexivity|].
  split; [vm_compute; reflexivity|].
  intros Heq.
  apply (f_equal (λ o : option (static_vector Z),
                    match o with Some s => buffer s !! 1 | None => None end)) in Heq.
  vm_compute in Heq. discriminate.
Qed.

(** * Instances of the theorems on concrete containers *)

Lemma capacity_4_range : 0 ≤ 4 < SIZE_MODULUS.
Proof. unfold SIZE_MODULUS. lia. Defined.

Lemma sample_123_holds : holds sample_123 [1; 2; 3].
Proof. concrete_holds. Defined.

Lemma sample_12n34_holds : holds sample_12n34 ([1; 2] ++ -3 :: [4]).
Proof. concrete_holds. Defined.

Lemma sample_9_holds : holds sample_9 [9].
Proof. concrete_holds. Defined.

Lemma range_construction_witness :
  ∃ w' : world Z,
    static_vector_range 4 1%positive [10; 20; 30] one_object = (Ok tt, w')
    ∧ static_vector_list 4 1%positive [10; 20; 30] one_object = (Ok tt, w')
    ∧ iterate 1%positive w' = (Ok [10; 20; 30], w').
Proof.
  refine (proj2 (range_construction 4 capacity_4_range 1%positive [10; 20; 30]
                   (objs one_object) [] raw_storage _ _) _ _).
  - reflexivity.
  - vm_compute. discriminate.
  - vm_compute. discriminate.
  - repeat constructor.
Defined.

Lemma at_validated_witness :
  (r ← at_ 1%positive 2; deref r) (World {[ 1%positive := sample_123 ]} [])
  = (Ok 3, World {[ 1%positive := sample_123 ]} []).
Proof.
  refine (proj2 (proj2 (proj1 (at_validated (T:=Z)) 1%positive 2
                          {[ 1%positive := sample_123 ]} [] sample_123 _))
                [1; 2; 3] 3 sample_123_holds _ _).
  - reflexivity.
  - lia.
  - reflexivity.
Defined.

Lemma copy_failure_unwinds_witness :
  @static_vector_copy Z fragile_element 2%positive 1%positive (World fragile_store [])
  = (Throw element_exception,
     World fragile_store
       [Construct 2%positive 0 1; Construct 2%positive 1 2;
        Destroy 2%positive 1 (Some 2); Destroy 2%positive 0 (Some 1)])
  ∧ @assign_copy Z fragile_element 2%positive 1%positive (World fragile_store [])
    = (Throw element_exception,
       World fragile_store
         [Construct 3%positive 0 1; Construct 3%positive 1 2;
          Destroy 3%positive 1 (Some 2); Destroy 3%positive 0 (Some 1)]).
Proof.
  destruct (@copy_failure_unwinds Z fragile_element 1%positive fragile_store []
              sample_12n34 [1; 2] [1; 2] [4] (-3)) as [Hctor Hassign].
  - reflexivity.
  - exact sample_12n34_holds.
  - vm_compute. reflexivity.
  - repeat constructor.
  - reflexivity.
  - split.
    + apply (Hctor 2%positive); [lia | reflexivity].
    + exact (Hassign 2%positive).
Defined.

Lemma container_equality_witness :
  ∃ w' : world Z,
    (static_vector_list 4 1%positive [1; 2; 3];;
     static_vector_list 4 2%positive [1; 2; 3]) two_objects = (Ok tt, w')
    ∧ equal_in w' 1%positive 2%positive.
Proof.
  destruct (container_equality (T:=Z) 4 capacity_4_range) as (_ & _ & _ & _ & Hlit).
  apply (Hlit Z.eqb_refl 1%positive 2%positive (objs two_objects) []
           raw_storage raw_storage [1; 2; 3] [1; 2; 3]).
  - lia.
  - reflexivity.
  - reflexivity.
  - vm_compute. discriminate.
  - repeat constructor.
Defined.

Lemma self_assignment_witness :
  assign_copy 1%positive 1%positive (World {[ 1%positive := sample_123 ]} [])
  = (Ok 1%positive,
     World {[ 1%positive := sample_123 ]}
       [Construct 2%positive 0 1; Construct 2%positive 1 2; Construct 2%positive 2 3;
        Destroy 2%positive 2 (Some 3); Destroy 2%positive 1 (Some 2);
        Destroy 2%positive 0 (Some 1)]).
Proof.
  assert (Hsize : curr_size sample_123 < SIZE_MODULUS) by (vm_compute; reflexivity).
  assert (Hcopy : Forall (λ x : Z, copy_construct x = Some x) [1; 2; 3])
    by repeat constructor.
  exact (self_assignment (T:=Z) 1%positive {[ 1%positive := sample_123 ]} []
           sample_123 [1; 2; 3] eq_refl sample_123_holds Hsize Hcopy).
Defined.


Lemma swap_within_overlap_witness :
  ∃ sa' sb',
    swap_friend 2%positive 1%positive (World store_123_9 [])
    = (Ok tt, World (<[1%positive := sb']> (<[2%positive := sa']> store_123_9)) [])
    ∧ (sa', sb') = swap_as_specified sample_9 sample_123
    ∧ curr_size sa' = 3 ∧ curr_size sb' = 1
    ∧ buffer sa' !! 0 = Some 1 ∧ buffer sb' !! 0 = Some 9
    ∧ buffer sb' !! 1 = Some 2 ∧ buffer sb' !! 2 = Some 3.
Proof.
  destruct (swap_within_overlap (T:=Z) 2%positive 1%positive store_123_9 []
              sample_9 sample_123 [9] [1; 2; 3])
    as (sa' & sb' & Hrun & Hspec & Hna & Hnb & Ha & Hb & _).
  - reflexivity.
  - reflexivity.
  - exact sample_9_holds.
  - exact sample_123_holds.
  - cbn [length]. lia.
  - exists sa', sb'. split; [exact Hrun|]. split; [exact Hspec|].
    split; [exact Hna|]. split; [exact Hnb|].
    split; [rewrite (Ha 0); reflexivity|].
    split; [rewrite (Hb 0); reflexivity|].
    split; [rewrite (Hb 1) | rewrite (Hb 2)]; reflexivity.
Defined.

(** * Further properties of the code *)

Section further_properties.

Context {T : Type} `{Element T}.
Variable N : Z.
Hypothesis N_range : 0 ≤ N < SIZE_MODULUS.

Abbreviation static_vector := (static_vector T).
Abbreviation M := (M T).

Implicit Types (O : gmap addr static_vector) (tr : list (event T)).
Implicit Types (s : static_vector) (this other : addr).

(** ** Containers and the sequences they hold *)

Lemma holds_nil (buf : gmap Z T) : holds (StaticVector buf 0) [].
Proof. split; [reflexivity|]. intros k x Hk. by rewrite lookup_nil in Hk. Qed.

Lemma holds_snoc s (xs : list T) y :
  holds s xs →
  holds (StaticVector (<[curr_size s := y]> (buffer s)) (curr_size s + 1)) (xs ++ [y]).
Proof.
  intros [Hn Hbuf]. split; cbn [buffer curr_size].
  - rewrite length_app. cbn [length]. lia.
  - intros k x Hk. destruct (decide (k < length xs)%nat) as [Hlt|Hge].
    + rewrite lookup_app_l in Hk by exact Hlt.
      rewrite lookup_insert_ne by lia. by apply Hbuf.
    + rewrite lookup_app_r in Hk by lia.
      destruct (k - length xs)%nat as [|k'] eqn:Hk'; [|by destruct k'].
      injection Hk as <-. replace (Z.of_nat k) with (curr_size s) by lia.
      apply lookup_insert_eq.
Qed.

Lemma holds_init s (xs : list T) x :
  holds s (xs ++ [x]) →
  holds (StaticVector (delete (curr_size s - 1) (buffer s)) (curr_size s - 1)) xs
  ∧ buffer s !! (curr_size s - 1) = Some x
  ∧ curr_size s - 1 = Z.of_nat (length xs).
Proof.
  intros [Hn Hbuf]. rewrite length_app in Hn. cbn [length] in Hn.
  split; [split|split]; cbn [buffer curr_size]; try lia.
  - intros k y Hk. pose proof (lookup_lt_Some _ _ _ Hk).
    rewrite lookup_delete_ne by lia. apply Hbuf. by apply lookup_app_l_Some.
  - replace (curr_size s - 1) with (Z.of_nat (length xs)) by lia.
    apply Hbuf. rewrite lookup_app_r by lia. by rewrite Nat.sub_diag.
Qed.

Lemma holds_unique s (xs ys : list T) : holds s xs → holds s ys → xs = ys.
Proof.
  intros [Hn Hx] [Hm Hy]. apply list_eq_same_length with (length xs); [lia|lia|].
  intros k x y Hk Hkx Hky.
  apply Hx in Hkx. apply Hy in Hky. congruence.
Qed.

(** ** Fill construction *)

Lemma replicate_seqZ {A B} (P : A → B → Prop) (a : A) (b : B) (n : nat) :
  P a b → Forall2 P (replicate n a) (replicate n b).
Proof. intros Hab. induction n; constructor; assumption. Qed.

(** X1: [static_vector(count, value)] throws [std::bad_alloc] when
    [count > N], before anything is constructed; otherwise it constructs
    [count] copies of [value] in the slots from 0 on, and the container then
    has size [count] and iterates over these copies ([count = 0] gives the
    empty container). *)
Theorem fill_construction this (count : Z) (value : T) O tr s0 :
  O !! this = Some s0 → 0 ≤ count →
  (count > N →
     static_vector_fill N this count value (World O tr)
     = (Throw bad_alloc, World (<[this := StaticVector (buffer s0) 0]> O) tr))
  ∧ (count ≤ N → ∀ y, copy_construct value = Some y →
     ∃ w', static_vector_fill N this count value (World O tr) = (Ok tt, w')
           ∧ trace w' = tr ++ constructions this 0 (replicate (Z.to_nat count) y)
           ∧ size this w' = (Ok count, w')
           ∧ iterate this w' = (Ok (replicate (Z.to_nat count) y), w')).
Proof.
  intros Hs Hcount. unfold static_vector_fill.
  rewrite (run_bind_ok _ _ _ _ _ (set_curr_size_ok _ _ _ _ 0 Hs)).
  rewrite run_bind, validate_count_run. split.
  - intros Hgt. by rewrite bool_decide_eq_true_2 by lia.
  - intros Hle y Hy. rewrite bool_decide_eq_false_2 by lia.
    set (n := Z.to_nat count).
    assert (Hseq : Forall2 (λ (_ : Z) x, x = value) (seqZ 0 count) (replicate n value)).
    { apply Forall2_same_length_lookup_2.
      - rewrite length_seqZ, length_replicate. reflexivity.
      - intros k i x _ Hx. by apply lookup_replicate in Hx as [-> _]. }
    rewrite (append_loop_ok this (λ _ : Z, pb_internal this value)
               (λ (_ : Z) x, x = value) (λ _, True)
               ltac:(done) ltac:(intros ? ? ? ? Hx _; cbv beta in Hx; by subst)
               _ (replicate n value) (replicate n y) _ tr (StaticVector (buffer s0) 0));
      [ | exact Hseq | by apply replicate_seqZ | done | apply lookup_insert_eq
        | done | cbn [curr_size]; rewrite length_replicate; lia ].
    cbn [buffer curr_size]. rewrite insert_insert_eq, length_replicate.
    eexists. split; [reflexivity|]. split; [reflexivity|]. split.
    + unfold size. rewrite (run_bind_ok _ _ _ _ _ (load_ok _ _ _ _ (lookup_insert_eq _ _ _))).
      cbn [curr_size]. rewrite run_ret. do 2 f_equal. lia.
    + eapply iterate_ok; [apply lookup_insert_eq|].
      pose proof (place_holds (replicate n y) (buffer s0)) as Hh.
      by rewrite length_replicate in Hh.
Qed.

(** ** Range construction when a copy throws *)

(** X2: when the copy of a source element throws during construction
    from a range (or a literal list), the exception leaves the constructor
    with the copies made so far still in their slots and [curr_size]
    counting them: none of them is destroyed. *)
Theorem range_construction_copy_throws this (xs ys rest : list T) x O tr s0 :
  O !! this = Some s0 →
  distance (xs ++ x :: rest) ≤ N →
  Forall2 (λ x y, copy_construct x = Some y) xs ys →
  copy_construct x = None →
  static_vector_range N this (xs ++ x :: rest) (World O tr)
  = (Throw element_exception,
     World (<[this := StaticVector (place 0 ys (buffer s0)) (Z.of_nat (length ys))]> O)
           (tr ++ constructions this 0 ys))
  ∧ static_vector_list N this (xs ++ x :: rest) (World O tr)
    = static_vector_range N this (xs ++ x :: rest) (World O tr)
  ∧ holds (StaticVector (place 0 ys (buffer s0)) (Z.of_nat (length ys))) ys.
Proof.
  intros Hs Hlen Hys Hx. unfold distance in Hlen.
  pose proof (Forall2_length Hys) as Hl.
  rewrite length_app in Hlen. cbn [length] in Hlen.
  split; [|split; [reflexivity|]].
  - unfold static_vector_range, distance.
    rewrite (run_bind_ok _ _ _ _ _ (set_curr_size_ok _ _ _ _ 0 Hs)).
    rewrite run_bind, validate_count_run, to_size_t_small
      by (rewrite length_app; cbn [length]; lia).
    rewrite bool_decide_eq_false_2 by (rewrite length_app; cbn [length]; lia).
    rewrite (append_loop_throw this _ eq (λ _, True) ltac:(done) ltac:(by intros; subst)
               xs x rest xs ys x _ tr (StaticVector (buffer s0) 0));
      [ cbn [buffer curr_size]; by rewrite insert_insert_eq, Z.add_0_l
      | by apply Forall_Forall2_diag, Forall_true | done | done | done | done
      | apply lookup_insert_eq | done | cbn [curr_size]; lia ].
  - pose proof (place_holds ys (buffer s0)) as Hh. by rewrite Z.add_0_l in Hh.
Qed.

(** ** Copying *)

(** X3: copy construction from a container holding [xs], all of whose
    copies succeed, constructs the copies in ascending order; the new
    container holds them, no other object (the source included) changes,
    and the source compares equal to its copy when every element compares
    equal to its copy. *)
Theorem copy_construction this other O tr s0 o (xs ys : list T) :
  this ≠ other → O !! this = Some s0 → O !! other = Some o →
  holds o xs → curr_size o < SIZE_MODULUS →
  Forall2 (λ x y, copy_construct x = Some y) xs ys →
  ∃ O' d,
    static_vector_copy this other (World O tr)
    = (Ok tt, World O' (tr ++ constructions this 0 ys))
    ∧ O' !! this = Some d ∧ holds d ys
    ∧ (∀ c, c ≠ this → O' !! c = O !! c)
    ∧ ((∀ x y, copy_construct x = Some y → elem_eq x y = true) →
       equal_in (World O' (tr ++ constructions this 0 ys)) other this).
Proof.
  intros Hne Hs Ho Hxs Hn Hys.
  rewrite (static_vector_copy_ok _ _ _ _ _ _ _ _ Hne Hs Ho Hxs Hn Hys).
  eexists _, _. split; [reflexivity|].
  split; [apply lookup_insert_eq|]. split; [apply place_holds|].
  split; [intros c Hc; by rewrite lookup_insert_ne|].
  intros Hcopy.
  eapply equal_in_iff;
    [ rewrite lookup_insert_ne by done; exact Ho | apply lookup_insert_eq
    | exact Hxs | apply place_holds | ].
  split; [exact (Forall2_length Hys)|].
  intros k x y Hx Hy. apply Hcopy. exact (Forall2_lookup_lr _ _ _ _ _ _ Hys Hx Hy).
Qed.

(** X4: copy assignment [a = b] between containers of one size within
    the capacity (or of a container to itself): when the copies of the
    elements of [b] succeed, the copies are constructed in the temporary in
    ascending order, exchanged with the elements of [a], and the former
    elements of [a] are destroyed with the temporary, last one first.
    Afterwards [a] holds the copies, and no other object has changed. *)
Theorem copy_assignment_same_size this other O tr a b (xs ys zs : list T) :
  O !! this = Some a → O !! other = Some b →
  holds a zs → holds b xs → length zs = length xs → Z.of_nat (length xs) ≤ N →
  Forall2 (λ x y, copy_construct x = Some y) xs ys →
  let tmp := fresh (dom O) in
  ∃ d,
    assign_copy this other (World O tr)
    = (Ok this,
       World (<[this := d]> O)
         (tr ++ constructions tmp 0 ys ++ reverse (destroyed tmp 0 zs)))
    ∧ holds d ys
    ∧ (∀ j, Z.of_nat (length ys) ≤ j → buffer d !! j = buffer a !! j)
    ∧ swappable_ranges
        (World (<[tmp := StaticVector (place 0 ys ∅) (Z.of_nat (length ys))]> O)
               (tr ++ constructions tmp 0 ys))
        (tmp, 0) (tmp, Z.of_nat (length ys)) (this, 0).
Proof.
  intros Ha Hb [Hna Hzs] Hxs Hlen HN Hys tmp.
  pose proof Hxs as [Hnb _]. pose proof (Forall2_length Hys) as Hlys.
  assert (Hsb : curr_size b < SIZE_MODULUS) by lia.
  assert (Hsa : 0 ≤ curr_size a < SIZE_MODULUS) by lia.
  rewrite (assign_copy_ok this other O tr a b xs ys Ha Hb Hxs Hsb Hsa Hys).
  fold tmp. rewrite Z.add_0_l.
  eexists. split; [|split; [|split]].
  - do 4 f_equal. rewrite Hna. apply destructions_descending.
    intros k z Hk. pose proof (lookup_lt_Some _ _ _ Hk).
    rewrite graft_lookup. case_decide as Hin; [by apply Hzs|].
    exfalso. apply Hin. rewrite elem_of_seqZ. lia.
  - split; cbn [buffer curr_size]; [reflexivity|].
    intros k y Hk. pose proof (lookup_lt_Some _ _ _ Hk).
    rewrite graft_lookup. case_decide as Hin.
    + by apply (place_holds ys ∅).
    + exfalso. apply Hin. rewrite elem_of_seqZ. lia.
  - intros j Hj. cbn [buffer]. rewrite graft_lookup.
    case_decide as Hin; [|reflexivity].
    apply elem_of_seqZ in Hin. lia.
  - intros k Hk. cbn [snd] in Hk.
    pose proof (fresh_storage_unused O) as Htmp. fold tmp in Htmp.
    assert (Htt : tmp ≠ this) by congruence.
    change (ptr_add (tmp, 0) k) with (tmp, k). change (ptr_add (this, 0) k) with (this, k).
    rewrite (peek_ok _ _ tmp (StaticVector (place 0 ys ∅) (Z.of_nat (length ys))) k)
      by apply lookup_insert_eq.
    rewrite (peek_ok _ _ this a k) by (rewrite lookup_insert_ne by done; exact Ha).
    cbn [buffer].
    destruct (ys !! Z.to_nat k) as [y|] eqn:Hy; [|apply lookup_ge_None in Hy; lia].
    destruct (zs !! Z.to_nat k) as [z|] eqn:Hz; [|apply lookup_ge_None in Hz; lia].
    exists y, z. apply (place_holds ys ∅) in Hy. apply Hzs in Hz.
    cbn [buffer] in Hy. rewrite Z2Nat.id in Hy, Hz by lia. by rewrite Hy, Hz.
Qed.


(** ** Swap on containers of one size *)

(** X6: [swap(a, b)] on two containers of one size (or on a container and
    itself), [a] holding [xs] and [b] holding [ys]: every exchange is
    between two constructed elements, nothing is constructed or destroyed,
    afterwards [a] holds [ys] and [b] holds [xs], no other object has
    changed, and a second [swap(a, b)] restores the store. *)
Theorem swap_same_size a b O tr sa sb (xs ys : list T) :
  O !! a = Some sa → O !! b = Some sb → holds sa xs → holds sb ys →
  length xs = length ys →
  ∃ O',
    swap_friend a b (World O tr) = (Ok tt, World O' tr)
    ∧ (∃ sa', O' !! a = Some sa' ∧ holds sa' ys)
    ∧ (∃ sb', O' !! b = Some sb' ∧ holds sb' xs)
    ∧ (∀ c, c ≠ a → c ≠ b → O' !! c = O !! c)
    ∧ swappable_ranges (World O tr) (a, 0) (a, curr_size sa) (b, 0)
    ∧ (swap_friend a b;; swap_friend a b) (World O tr) = (Ok tt, World O tr).
Proof.
  intros Ha Hb Hxs Hys Hlen.
  pose proof Hxs as [Hna Hbxs]. pose proof Hys as [Hnb Hbys].
  assert (Hswappable : swappable_ranges (World O tr) (a, 0) (a, curr_size sa) (b, 0)).
  { intros k Hk. cbn [snd] in Hk.
    change (ptr_add (a, 0) k) with (a, k). change (ptr_add (b, 0) k) with (b, k).
    rewrite (peek_ok _ _ _ _ _ Ha), (peek_ok _ _ _ _ _ Hb).
    destruct (xs !! Z.to_nat k) as [x|] eqn:Hx; [|apply lookup_ge_None in Hx; lia].
    destruct (ys !! Z.to_nat k) as [y|] eqn:Hy; [|apply lookup_ge_None in Hy; lia].
    exists x, y. apply Hbxs in Hx. apply Hbys in Hy.
    rewrite Z2Nat.id in Hx, Hy by lia. by rewrite Hx, Hy. }
  unfold swap_friend. destruct (decide (a = b)) as [->|Hne].
  - assert (sa = sb) as -> by congruence.
    assert (xs = ys) as -> by exact (holds_unique _ _ _ Hxs Hys).
    exists O. rewrite run_bind, !(swap_self_ok _ _ _ _ Hb).
    split; [reflexivity|]. split; [by exists sb|]. split; [by exists sb|].
    split; [done|]. split; [exact Hswappable|reflexivity].
  - set (n := curr_size sa).
    set (sa' := StaticVector (graft (seqZ 0 n) (buffer sb) (buffer sa)) (curr_size sb)).
    set (sb' := StaticVector (graft (seqZ 0 n) (buffer sa) (buffer sb)) (curr_size sa)).
    assert (Hrun : swap a b (World O tr)
                   = (Ok tt, World (<[b := sb']> (<[a := sa']> O)) tr))
      by exact (swap_ok _ _ _ _ _ _ Hne Ha Hb).
    assert (Hin : ∀ j, j ∈ seqZ 0 n ↔ 0 ≤ j < n)
      by (intros j; rewrite elem_of_seqZ; lia).
    exists (<[b := sb']> (<[a := sa']> O)).
    split; [exact Hrun|]. split; [|split; [|split; [|split]]].
    + exists sa'. split; [by rewrite lookup_insert_ne, lookup_insert_eq|].
      split; cbn [sa' buffer curr_size]; [exact Hnb|].
      intros k y Hk. pose proof (lookup_lt_Some _ _ _ Hk).
      rewrite graft_lookup. case_decide as Hj; [by apply Hbys|].
      exfalso. apply Hj, Hin. unfold n. lia.
    + exists sb'. split; [by rewrite lookup_insert_eq|].
      split; cbn [sb' buffer curr_size]; [exact Hna|].
      intros k x Hk. pose proof (lookup_lt_Some _ _ _ Hk).
      rewrite graft_lookup. case_decide as Hj; [by apply Hbxs|].
      exfalso. apply Hj, Hin. unfold n. lia.
    + intros c Hca Hcb. by rewrite !lookup_insert_ne.
    + exact Hswappable.
    + rewrite run_bind, Hrun.
      rewrite (swap_ok _ _ _ _ sa' sb' Hne);
        [ | by rewrite lookup_insert_ne, lookup_insert_eq | by rewrite lookup_insert_eq ].
      assert (Hsame : curr_size sa' = n) by (unfold sa', n; cbn [curr_size]; lia).
      rewrite Hsame. unfold sa', sb'. cbn [buffer curr_size].
      do 2 f_equal. apply map_eq. intros c.
      destruct (decide (c = b)) as [->|Hcb]; [|destruct (decide (c = a)) as [->|Hca]].
      * rewrite lookup_insert_eq, Hb. f_equal. apply static_vector_eq; [|unfold n; lia].
        apply map_eq. intros j. rewrite !graft_lookup. by repeat case_decide.
      * rewrite lookup_insert_ne, lookup_insert_eq, Ha by done. f_equal.
        apply static_vector_eq; [|reflexivity].
        apply map_eq. intros j. rewrite !graft_lookup. by repeat case_decide.
      * by rewrite !lookup_insert_ne.
Qed.

(** ** Clearing an empty container *)

Lemma clear_elements_empty O tr this s :
  O !! this = Some s → curr_size s = 0 →
  clear_elements this (World O tr) = (Ok tt, World O tr).
Proof.
  intros Hs Hn. rewrite (clear_elements_ok _ _ _ _ Hs) by (unfold SIZE_MODULUS; lia).
  rewrite Hn. cbn [wipe destructions reverse seqZ]. rewrite app_nil_r.
  destruct s as [buf n]. cbn [buffer curr_size] in *. subst n.
  by rewrite insert_id.
Qed.

(** ** Appending and removing at the end *)

(** What the three appending members have in common: the validation,
    then the construction in slot [curr_size] by the constructor selected,
    whose result is [made]. *)
Lemma append_run (made : option T) this O tr s :
  O !! this = Some s →
  (validate_curr_size N this;;
   s ← load this;
   placement_new (this, curr_size s) made;;
   s ← load this;
   set_curr_size this (to_size_t (curr_size s + 1))) (World O tr)
  = if bool_decide (curr_size s > N) then (Throw length_error, World O tr)
    else match made with
         | Some y =>
             (Ok tt, World (<[this := StaticVector (<[curr_size s := y]> (buffer s))
                                                   (to_size_t (curr_size s + 1))]> O)
                           (tr ++ [Construct this (curr_size s) y]))
         | None => (Throw element_exception, World O tr)
         end.
Proof.
  intros Hs. rewrite run_bind, (validate_curr_size_run _ _ _ _ _ Hs).
  case_bool_decide; [reflexivity|]. destruct made as [y|].
  - by apply (internal_append_ok _ _ _ s).
  - by apply (internal_append_throw _ _ _ s).
Qed.

Lemma push_back_run this (v : T) O tr s :
  O !! this = Some s →
  push_back N this v (World O tr)
  = if bool_decide (curr_size s > N) then (Throw length_error, World O tr)
    else match copy_construct v with
         | Some y =>
             (Ok tt, World (<[this := StaticVector (<[curr_size s := y]> (buffer s))
                                                   (to_size_t (curr_size s + 1))]> O)
                           (tr ++ [Construct this (curr_size s) y]))
         | None => (Throw element_exception, World O tr)
         end.
Proof. exact (append_run (copy_construct v) this O tr s). Qed.

Lemma push_back_move_run this (v : T) O tr s :
  O !! this = Some s →
  push_back_move N this v (World O tr)
  = if bool_decide (curr_size s > N) then (Throw length_error, World O tr)
    else match move_construct v with
         | Some y =>
             (Ok tt, World (<[this := StaticVector (<[curr_size s := y]> (buffer s))
                                                   (to_size_t (curr_size s + 1))]> O)
                           (tr ++ [Construct this (curr_size s) y]))
         | None => (Throw element_exception, World O tr)
         end.
Proof. exact (append_run (move_construct v) this O tr s). Qed.

Lemma emplace_back_run {Args} (ctor : Args → option T) (args : Args) this O tr s :
  O !! this = Some s →
  emplace_back N ctor this args (World O tr)
  = if bool_decide (curr_size s > N) then (Throw length_error, World O tr)
    else match ctor args with
         | Some y =>
             (Ok tt, World (<[this := StaticVector (<[curr_size s := y]> (buffer s))
                                                   (to_size_t (curr_size s + 1))]> O)
                           (tr ++ [Construct this (curr_size s) y]))
         | None => (Throw element_exception, World O tr)
         end.
Proof. exact (append_run (ctor args) this O tr s). Qed.

(** X9: on a container that holds [xs] with fewer than [N] elements,
    [push_back] by copy, [push_back] by move and [emplace_back] each
    construct the new element in slot [size()], and the container then
    holds [xs] followed by that element; nothing else changes. *)
Theorem append_below_capacity this O tr s (xs : list T) :
  O !! this = Some s → holds s xs → curr_size s < N →
  (∀ v y, copy_construct v = Some y →
     ∃ d, push_back N this v (World O tr)
          = (Ok tt, World (<[this := d]> O) (tr ++ [Construct this (Z.of_nat (length xs)) y]))
          ∧ holds d (xs ++ [y]))
  ∧ (∀ v y, move_construct v = Some y →
     ∃ d, push_back_move N this v (World O tr)
          = (Ok tt, World (<[this := d]> O) (tr ++ [Construct this (Z.of_nat (length xs)) y]))
          ∧ holds d (xs ++ [y]))
  ∧ (∀ Args (ctor : Args → option T) args y, ctor args = Some y →
     ∃ d, emplace_back N ctor this args (World O tr)
          = (Ok tt, World (<[this := d]> O) (tr ++ [Construct this (Z.of_nat (length xs)) y]))
          ∧ holds d (xs ++ [y])).
Proof.
  intros Hs Hxs Hn. pose proof Hxs as [Hsz _].
  assert (Hresult : ∀ y,
    ∃ d, (Ok tt, World (<[this := StaticVector (<[curr_size s := y]> (buffer s))
                                               (to_size_t (curr_size s + 1))]> O)
                       (tr ++ [Construct this (curr_size s) y]))
         = (Ok tt, World (<[this := d]> O) (tr ++ [Construct this (Z.of_nat (length xs)) y]))
         ∧ holds d (xs ++ [y])).
  { intros y.
    exists (StaticVector (<[curr_size s := y]> (buffer s)) (curr_size s + 1)).
    split; [|by apply holds_snoc].
    rewrite to_size_t_small by lia. by rewrite <- Hsz. }
  split; [|split].
  - intros v y Hy. rewrite (push_back_run _ _ _ _ _ Hs), Hy.
    rewrite bool_decide_eq_false_2 by lia. apply Hresult.
  - intros v y Hy. rewrite (push_back_move_run _ _ _ _ _ Hs), Hy.
    rewrite bool_decide_eq_false_2 by lia. apply Hresult.
  - intros Args ctor args y Hy. rewrite (emplace_back_run _ _ _ _ _ _ Hs), Hy.
    rewrite bool_decide_eq_false_2 by lia. apply Hresult.
Qed.


Lemma pop_back_run this O tr s :
  O !! this = Some s →
  let n := to_size_t (curr_size s - 1) in
  pop_back this (World O tr)
  = (Ok tt, World (<[this := StaticVector (delete n (buffer s)) n]> O)
                  (tr ++ [Destroy this n (buffer s !! n)])).
Proof.
  intros Hs n. unfold pop_back.
  rewrite (run_bind_ok _ _ _ _ _ (load_ok _ _ _ _ Hs)).
  rewrite (run_bind_ok _ _ _ _ _ (set_curr_size_ok _ _ _ _ n Hs)).
  rewrite (run_bind_ok _ _ _ _ _ (load_ok _ _ _ _ (lookup_insert_eq _ _ _))).
  cbn [curr_size].
  change (cleaned_data_ptr this n) with (this, n).
  rewrite (destroy_at_ok _ _ _ _ _ (lookup_insert_eq _ _ _)).
  cbn [buffer curr_size]. by rewrite insert_insert_eq.
Qed.

(** X11: [pop_back] on a container that holds [xs] followed by [x]
    destroys [x], in the last slot, and the container then holds [xs]. *)
Theorem pop_back_removes_last this O tr s (xs : list T) x :
  O !! this = Some s → holds s (xs ++ [x]) → curr_size s < SIZE_MODULUS →
  ∃ d, pop_back this (World O tr)
       = (Ok tt, World (<[this := d]> O)
                       (tr ++ [Destroy this (Z.of_nat (length xs)) (Some x)]))
       ∧ holds d xs.
Proof.
  intros Hs Hxs Hn. destruct (holds_init _ _ _ Hxs) as (Hd & Hx & Hlen).
  rewrite (pop_back_run _ _ _ _ Hs). cbv zeta.
  rewrite to_size_t_small by lia. rewrite Hx, <- Hlen.
  eexists. split; [reflexivity | exact Hd].
Qed.

(** X12: [push_back(v)] followed by [pop_back()], below the capacity:
    the copy is constructed and then destroyed, and the container holds the
    sequence it held before; when the slot above the last element held
    nothing, the whole store is as before. *)
Theorem push_back_then_pop_back this (v y : T) O tr s (xs : list T) :
  O !! this = Some s → holds s xs → curr_size s < N →
  copy_construct v = Some y →
  ∃ d, (push_back N this v;; pop_back this) (World O tr)
       = (Ok tt, World (<[this := d]> O)
                       (tr ++ [Construct this (Z.of_nat (length xs)) y;
                               Destroy this (Z.of_nat (length xs)) (Some y)]))
       ∧ holds d xs
       ∧ (buffer s !! curr_size s = None → <[this := d]> O = O).
Proof.
  intros Hs Hxs Hn Hy. pose proof Hxs as [Hsz Hbuf].
  rewrite run_bind, (push_back_run _ _ _ _ _ Hs), Hy.
  rewrite bool_decide_eq_false_2 by lia.
  rewrite (pop_back_run _ _ _ _ (lookup_insert_eq _ _ _)). cbv zeta.
  cbn [buffer curr_size].
  rewrite (to_size_t_small (curr_size s + 1)) by lia.
  replace (curr_size s + 1 - 1) with (curr_size s) by lia.
  rewrite to_size_t_small by lia.
  rewrite lookup_insert_eq, delete_insert_eq, insert_insert_eq, <- app_assoc, Hsz.
  eexists. split; [reflexivity|]. split.
  - split; cbn [buffer curr_size]; [reflexivity|].
    intros k x Hk. pose proof (lookup_lt_Some _ _ _ Hk).
    rewrite lookup_delete_ne by lia. by apply Hbuf.
  - rewrite <- Hsz. intros Hnone. rewrite delete_id by exact Hnone.
    destruct s. by apply insert_id.
Qed.

(** X13: [pop_back] makes no check for emptiness: on a container of size
    0 it returns normally, [curr_size] wraps around to [2^64 - 1],
    [std::destroy_at] is applied to the slot of that index, and [empty()]
    is then false. *)
Theorem pop_back_on_empty this O tr s :
  O !! this = Some s → curr_size s = 0 →
  ∃ w' d,
    pop_back this (World O tr) = (Ok tt, w')
    ∧ objs w' = <[this := d]> O
    ∧ curr_size d = SIZE_MODULUS - 1
    ∧ trace w' = tr ++ [Destroy this (SIZE_MODULUS - 1) (buffer s !! (SIZE_MODULUS - 1))]
    ∧ empty this w' = (Ok false, w').
Proof.
  intros Hs Hn. rewrite (pop_back_run _ _ _ _ Hs). cbv zeta. rewrite Hn.
  change (to_size_t (0 - 1)) with (SIZE_MODULUS - 1).
  eexists _, _. split; [reflexivity|]. cbn [objs trace curr_size].
  split; [reflexivity|]. split; [reflexivity|]. split; [reflexivity|].
  unfold empty.
  rewrite (run_bind_ok _ _ _ _ _ (load_ok _ _ _ _ (lookup_insert_eq _ _ _))).
  reflexivity.
Qed.

(** X14: [clear()] on a container that holds [xs] destroys its elements
    from the last to the first and sets the size to 0; the slots it
    occupied are empty, [empty()] is then true, and no other object
    changes.  On a container of size 0 it changes nothing at all. *)
Theorem clear_destroys_all this O tr s (xs : list T) :
  O !! this = Some s → holds s xs → curr_size s < SIZE_MODULUS →
  (∃ d, clear this (World O tr)
        = (Ok tt, World (<[this := d]> O) (tr ++ reverse (destroyed this 0 xs)))
        ∧ curr_size d = 0
        ∧ (∀ j, buffer d !! j
                = if decide (0 ≤ j < curr_size s) then None else buffer s !! j)
        ∧ empty this (World (<[this := d]> O) (tr ++ reverse (destroyed this 0 xs)))
          = (Ok true, World (<[this := d]> O) (tr ++ reverse (destroyed this 0 xs))))
  ∧ (curr_size s = 0 → clear this (World O tr) = (Ok tt, World O tr)).
Proof.
  intros Hs [Hsz Hbuf] Hn. unfold clear. split.
  - rewrite (clear_elements_ok _ _ _ _ Hs) by lia.
    assert (Hd : destructions this (reverse (seqZ 0 (curr_size s))) (buffer s)
                 = reverse (destroyed this 0 xs))
      by (rewrite Hsz; apply destructions_descending, Hbuf).
    rewrite Hd. eexists. split; [reflexivity|]. cbn [buffer curr_size].
    split; [reflexivity|]. split.
    + intros j. rewrite wipe_lookup.
      repeat case_decide; try reflexivity; exfalso;
        rewrite elem_of_reverse, elem_of_seqZ in *; lia.
    + unfold empty.
      rewrite (run_bind_ok _ _ _ _ _ (load_ok _ _ _ _ (lookup_insert_eq _ _ _))).
      reflexivity.
  - intros Hzero. by apply (clear_elements_empty _ _ _ s).
Qed.

(** ** Unvalidated access and reverse iteration *)

(** X15: on a container that holds [xs], [operator[]] at a position below
    the size refers to the element of [xs] at that position and returns the
    reference [at] returns; [front()] refers to the first element and
    [back()] to the last one. *)
Theorem unvalidated_access this O tr s (xs : list T) :
  O !! this = Some s → holds s xs → curr_size s < SIZE_MODULUS →
  let w := World O tr in
  (∀ k x, xs !! k = Some x →
     (r ← subscript this (Z.of_nat k); deref r) w = (Ok x, w)
     ∧ subscript this (Z.of_nat k) w = at_ this (Z.of_nat k) w)
  ∧ (∀ x, xs !! 0%nat = Some x → (r ← front this; deref r) w = (Ok x, w))
  ∧ (∀ x, xs !! pred (length xs) = Some x → (r ← back this; deref r) w = (Ok x, w)).
Proof.
  intros Hs [Hsz Hbuf] Hn w. split; [|split].
  - intros k x Hk. pose proof (lookup_lt_Some _ _ _ Hk). split.
    + unfold subscript. rewrite (run_bind_ok _ _ _ _ _ (run_ret _ _)).
      change (cleaned_data_ptr this (Z.of_nat k)) with (this, Z.of_nat k).
      apply (deref_ok _ _ _ s); [exact Hs | by apply Hbuf].
    + unfold subscript, at_, validate_index. rewrite !run_bind.
      unfold w. rewrite (load_ok _ _ _ _ Hs).
      by rewrite bool_decide_eq_false_2 by lia.
  - intros x Hx. unfold front. rewrite (run_bind_ok _ _ _ _ _ (run_ret _ _)).
    change (cleaned_data_ptr this 0) with (this, 0).
    apply (deref_ok _ _ _ s); [exact Hs|].
    by apply (Hbuf 0%nat).
  - intros x Hx. unfold back. rewrite run_bind.
    unfold w. rewrite (run_bind_ok _ _ _ _ _ (load_ok _ _ _ _ Hs)), run_ret.
    pose proof (lookup_lt_Some _ _ _ Hx).
    rewrite to_size_t_small by lia.
    change (cleaned_data_ptr this (curr_size s - 1)) with (this, 0 + (curr_size s - 1)).
    apply (deref_ok _ _ _ s); [exact Hs|].
    rewrite <- (Hbuf _ _ Hx). f_equal. lia.
Qed.

Lemma collect_reverse_ok O tr this s (xs : list T) : ∀ n : nat,
  O !! this = Some s → (n ≤ length xs)%nat →
  (∀ k x, xs !! k = Some x → buffer s !! Z.of_nat k = Some x) →
  collect_reverse n (ReverseIterator (this, Z.of_nat n)) (World O tr)
  = (Ok (reverse (take n xs)), World O tr).
Proof.
  induction n as [|n IH]; intros Hs Hn Hbuf.
  - reflexivity.
  - destruct (xs !! n) as [x|] eqn:Hx; [|apply lookup_ge_None in Hx; lia].
    cbn [collect_reverse]. unfold riterator_deref, riterator_next. cbn [current].
    replace (ptr_add (this, Z.of_nat (S n)) (-1)) with ((this, Z.of_nat n) : pointer)
      by (unfold ptr_add; cbn [fst snd]; f_equal; lia).
    rewrite (run_bind_ok _ _ _ _ _ (deref_ok _ tr _ _ _ x Hs (Hbuf _ _ Hx))).
    rewrite (run_bind_ok _ _ _ _ _ (IH Hs ltac:(lia) Hbuf)).
    rewrite run_ret, (take_S_r _ _ _ Hx), reverse_snoc. reflexivity.
Qed.

(** X16: iterating from [rbegin()] to [rend()] over a container that
    holds [xs] yields the elements of [xs] in reverse order, and changes
    nothing. *)
Theorem reverse_iteration this O tr s (xs : list T) :
  O !! this = Some s → holds s xs →
  iterate_reverse this (World O tr) = (Ok (reverse xs), World O tr).
Proof.
  intros Hs [Hsz Hbuf]. unfold iterate_reverse.
  assert (Hfirst : rbegin this (World O tr)
                   = (Ok (ReverseIterator (this, curr_size s)), World O tr)).
  { unfold rbegin, end_.
    rewrite run_bind, (run_bind_ok _ _ _ _ _ (load_ok _ _ _ _ Hs)). reflexivity. }
  assert (Hlast : rend this (World O tr)
                  = (Ok (ReverseIterator (this, 0)), World O tr)) by reflexivity.
  rewrite (run_bind_ok _ _ _ _ _ Hfirst), (run_bind_ok _ _ _ _ _ Hlast).
  cbn [current snd]. rewrite Z.sub_0_r, Hsz, Nat2Z.id.
  rewrite (collect_reverse_ok _ _ _ s xs (length xs) Hs ltac:(lia) Hbuf).
  by rewrite firstn_all.
Qed.

(** ** What every sequence of mutations keeps *)

Lemma destroyed_within this (ys : list T) : ∀ n,
  0 ≤ n → n + Z.of_nat (length ys) ≤ N →
  Forall (within N this) (destroyed this n ys).
Proof.
  induction ys as [|y ys IH]; intros n Hn Hlen; cbn [destroyed length] in *.
  - constructor.
  - constructor; [cbn; split; [reflexivity|split; [lia|by eexists]]|].
    apply IH; lia.
Qed.

Lemma guarded_append_keeps_capacity (call : M unit) (made : option T) this O tr s
    (xs : list T) :
  O !! this = Some s → holds s xs → Z.of_nat (length xs) ≤ N →
  call (World O tr)
  = (if bool_decide (curr_size s > N) then (Throw length_error, World O tr)
     else match made with
          | Some y =>
              (Ok tt, World (<[this := StaticVector (<[curr_size s := y]> (buffer s))
                                                    (to_size_t (curr_size s + 1))]> O)
                            (tr ++ [Construct this (curr_size s) y]))
          | None => (Throw element_exception, World O tr)
          end) →
  ∃ d evs xs',
    (n ← size this; c ← capacity N this;
     if bool_decide (n < c) then attempt call else ret tt) (World O tr)
    = (Ok tt, World (<[this := d]> O) (tr ++ evs))
    ∧ holds d xs' ∧ Z.of_nat (length xs') ≤ N ∧ Forall (within N this) evs.
Proof.
  intros Hs Hxs Hlen Hcall. pose proof Hxs as [Hsz _].
  unfold size, capacity.
  rewrite run_bind, (run_bind_ok _ _ _ _ _ (load_ok _ _ _ _ Hs)), run_ret.
  rewrite run_bind, run_ret.
  destruct (bool_decide (curr_size s < N)) eqn:Hroom.
  - apply bool_decide_eq_true in Hroom. unfold attempt. rewrite Hcall.
    rewrite bool_decide_eq_false_2 by lia. destruct made as [y|].
    + rewrite to_size_t_small by lia.
      exists (StaticVector (<[curr_size s := y]> (buffer s)) (curr_size s + 1)),
             [Construct this (curr_size s) y], (xs ++ [y]).
      split; [reflexivity|]. split; [by apply holds_snoc|].
      split; [rewrite length_app; cbn [length]; lia|].
      constructor; [cbn; split; [reflexivity|lia]|constructor].
    + exists s, [], xs. rewrite insert_id, app_nil_r by exact Hs. by repeat (split; [done|]); constructor.
  - exists s, [], xs. rewrite run_ret, insert_id, app_nil_r by exact Hs.
    by repeat (split; [done|]); constructor.
Qed.

Lemma perform_keeps_capacity this (op : operation) O tr s (xs : list T) :
  O !! this = Some s → holds s xs → Z.of_nat (length xs) ≤ N →
  ∃ d evs xs',
    perform N this op (World O tr) = (Ok tt, World (<[this := d]> O) (tr ++ evs))
    ∧ holds d xs' ∧ Z.of_nat (length xs') ≤ N ∧ Forall (within N this) evs.
Proof.
  intros Hs Hxs Hlen. pose proof Hxs as [Hsz Hbuf].
  destruct op as [v|v|Args ctor args| |]; cbn [perform].
  - apply (guarded_append_keeps_capacity _ (copy_construct v) _ _ _ s xs); try done.
    by apply push_back_run.
  - apply (guarded_append_keeps_capacity _ (move_construct v) _ _ _ s xs); try done.
    by apply push_back_move_run.
  - apply (guarded_append_keeps_capacity _ (ctor args) _ _ _ s xs); try done.
    by apply emplace_back_run.
  - unfold empty.
    rewrite run_bind, (run_bind_ok _ _ _ _ _ (load_ok _ _ _ _ Hs)), run_ret.
    case_bool_decide as Hzero.
    { exists s, [], xs. rewrite run_ret, insert_id, app_nil_r by exact Hs.
      by repeat (split; [done|]); constructor. }
    destruct xs as [|x0 xs0 _] using rev_ind; [cbn [length] in Hsz; lia|].
    rewrite length_app in Hsz, Hlen. cbn [length] in Hsz, Hlen.
    destruct (pop_back_removes_last this O tr s xs0 x0 Hs Hxs ltac:(lia))
      as (d & Hrun & Hd).
    eexists d, _, xs0. split; [exact Hrun|]. split; [exact Hd|]. split; [lia|].
    constructor; [cbn; split; [reflexivity|split; [lia|by eexists]]|constructor].
  - destruct (clear_destroys_all this O tr s xs Hs Hxs ltac:(lia))
      as ((d & Hrun & Hzero & _) & _).
    eexists d, _, []. split; [exact Hrun|].
    split; [|split; [cbn [length]; lia|]].
    + destruct d as [buf n]. cbn [curr_size] in Hzero. subst n. apply holds_nil.
    + apply Forall_reverse, destroyed_within; lia.
Qed.

(** X17: a caller that appends (by [push_back] of a copy or of a moved
    value, or by [emplace_back], catching what the element's constructor
    throws) only while [size() < capacity()], calls [pop_back] only on a
    non-empty container and [clear] at will, on a container that holds at
    most [N] elements: every call returns, the container holds a sequence
    of at most [N] elements after each of them, every element is
    constructed in a slot of the buffer, every destruction is of a
    constructed element in a slot of the buffer, and no other object
    changes. *)
Theorem mutations_keep_capacity this (ops : list operation) : ∀ O tr s (xs : list T),
  O !! this = Some s → holds s xs → Z.of_nat (length xs) ≤ N →
  ∃ d evs xs',
    perform_all N this ops (World O tr) = (Ok tt, World (<[this := d]> O) (tr ++ evs))
    ∧ holds d xs' ∧ Z.of_nat (length xs') ≤ N ∧ Forall (within N this) evs.
Proof.
  unfold perform_all.
  induction ops as [|op ops IH]; intros O tr s xs Hs Hxs Hlen.
  - exists s, [], xs. cbn [for_each]. rewrite run_ret, insert_id, app_nil_r by exact Hs.
    by repeat (split; [done|]); constructor.
  - destruct (perform_keeps_capacity this op O tr s xs Hs Hxs Hlen)
      as (d & evs1 & xs1 & Hrun & Hd & Hlen1 & Hevs1).
    destruct (IH (<[this := d]> O) (tr ++ evs1) d xs1 (lookup_insert_eq _ _ _) Hd Hlen1)
      as (d' & evs2 & xs' & Hrun' & Hd' & Hlen' & Hevs2).
    exists d', (evs1 ++ evs2), xs'. cbn [for_each].
    rewrite (run_bind_ok _ _ _ _ _ Hrun), Hrun', insert_insert_eq, app_assoc.
    split; [reflexivity|]. split; [exact Hd'|]. split; [exact Hlen'|].
    by apply Forall_app.
Qed.

End further_properties.

(** * Ordering *)

Section ordering_properties.

Context {T : Type} `{Ordered T}.

Abbreviation static_vector := (static_vector T).

Implicit Types (O : gmap addr static_vector) (tr : list (event T)).
Implicit Types (xs ys zs : list T).

Lemma lexicographical_from_ok O tr a b sa sb xs : ∀ ys n at_end,
  O !! a = Some sa → O !! b = Some sb →
  (∀ k x, xs !! k = Some x → buffer sa !! (n + Z.of_nat k) = Some x) →
  (∀ k y, ys !! k = Some y → buffer sb !! (n + Z.of_nat k) = Some y) →
  at_end = bool_decide (length xs < length ys)%nat →
  lexicographical_from (seqZ n (Z.of_nat (length xs `min` length ys)))
    (a, 0) (b, 0) at_end (World O tr)
  = (Ok (lexicographic xs ys), World O tr).
Proof.
  induction xs as [|x xs IH]; intros [|y ys] n at_end Ha Hb Hxs Hys ->;
    cbn [length Nat.min lexicographic]; try reflexivity.
  rewrite seqZ_cons by lia. cbn [lexicographical_from].
  change (ptr_add (a, 0) n) with (a, n). change (ptr_add (b, 0) n) with (b, n).
  rewrite (run_bind_ok _ _ _ _ _ (deref_ok _ tr _ _ n x Ha ltac:(
    rewrite <- (Hxs 0%nat x eq_refl); f_equal; lia))).
  rewrite (run_bind_ok _ _ _ _ _ (deref_ok _ tr _ _ n y Hb ltac:(
    rewrite <- (Hys 0%nat y eq_refl); f_equal; lia))).
  destruct (elem_lt x y); [reflexivity|]. destruct (elem_lt y x); [reflexivity|].
  replace (Z.pred (Z.of_nat (S (length xs `min` length ys))))
    with (Z.of_nat (length xs `min` length ys)) by lia.
  apply IH; [done | done | | |].
  - intros k x' Hk. rewrite <- (Hxs (S k) x' Hk). f_equal. lia.
  - intros k y' Hk. rewrite <- (Hys (S k) y' Hk). f_equal. lia.
  - apply bool_decide_ext. lia.
Qed.

Lemma operator_lt_ok O tr a b sa sb xs ys :
  O !! a = Some sa → O !! b = Some sb → holds sa xs → holds sb ys →
  operator_lt a b (World O tr) = (Ok (lexicographic xs ys), World O tr).
Proof.
  intros Ha Hb [Hna Hxs] [Hnb Hys]. unfold operator_lt, begin, end_.
  rewrite (run_bind_ok _ _ _ _ _ (run_ret _ _)).
  rewrite run_bind, (run_bind_ok _ _ _ _ _ (load_ok _ _ _ _ Ha)), run_ret.
  rewrite (run_bind_ok _ _ _ _ _ (run_ret _ _)).
  rewrite run_bind, (run_bind_ok _ _ _ _ _ (load_ok _ _ _ _ Hb)), run_ret.
  unfold lexicographical_compare.
  change (cleaned_data_ptr a (curr_size sa)).2 with (0 + curr_size sa).
  change (cleaned_data_ptr b (curr_size sb)).2 with (0 + curr_size sb).
  change (cleaned_data_ptr a 0).2 with 0. change (cleaned_data_ptr b 0).2 with 0.
  change (cleaned_data_ptr a 0) with ((a, 0) : pointer).
  change (cleaned_data_ptr b 0) with ((b, 0) : pointer).
  cbv zeta. rewrite !Z.add_0_l, !Z.sub_0_r, Hna, Hnb, <- Nat2Z.inj_min.
  apply (lexicographical_from_ok _ _ _ _ sa sb); [done | done | | |].
  - intros k x Hk. rewrite Z.add_0_l. by apply Hxs.
  - intros k y Hk. rewrite Z.add_0_l. by apply Hys.
  - repeat case_bool_decide; cbn [andb negb]; (reflexivity || lia).
Qed.

Lemma lexicographic_unordered xs : ∀ ys,
  lexicographic xs ys = false ∧ lexicographic ys xs = false
  ↔ Forall2 unordered xs ys.
Proof.
  induction xs as [|x xs IH]; intros [|y ys]; cbn [lexicographic].
  - split; [constructor | done].
  - split; [intros [? _]; done | intros Hf; inversion Hf].
  - split; [intros [_ ?]; done | intros Hf; inversion Hf].
  - destruct (elem_lt x y) eqn:Hxy, (elem_lt y x) eqn:Hyx.
    + split; [intros [? _]; done | intros Hf; inversion Hf as [|???? [? ?]]; congruence].
    + split; [intros [? _]; done | intros Hf; inversion Hf as [|???? [? ?]]; congruence].
    + split; [intros [_ ?]; done | intros Hf; inversion Hf as [|???? [? ?]]; congruence].
    + rewrite IH. split.
      * intros Hf. by constructor.
      * intros Hf. by inversion Hf.
Qed.

Section strict_weak_order.

Hypothesis lt_irreflexive : ∀ x : T, elem_lt x x = false.
Hypothesis lt_transitive : ∀ x y z : T,
  elem_lt x y = true → elem_lt y z = true → elem_lt x z = true.
Hypothesis unordered_transitive : ∀ x y z : T,
  unordered x y → unordered y z → unordered x z.

Lemma lt_asymmetric (x y : T) : elem_lt x y = true → elem_lt y x = false.
Proof.
  intros Hxy. destruct (elem_lt y x) eqn:Hyx; [|reflexivity].
  pose proof (lt_transitive _ _ _ Hxy Hyx). by rewrite lt_irreflexive in *.
Qed.

Lemma lt_unordered_r (x y z : T) :
  elem_lt x y = true → unordered y z → elem_lt x z = true.
Proof.
  intros Hxy [Hyz Hzy]. destruct (elem_lt x z) eqn:Hxz; [reflexivity|].
  destruct (elem_lt z x) eqn:Hzx.
  - pose proof (lt_transitive _ _ _ Hzx Hxy). congruence.
  - destruct (unordered_transitive x z y) as [? _]; [done | done | congruence].
Qed.

Lemma lt_unordered_l (x y z : T) :
  unordered x y → elem_lt y z = true → elem_lt x z = true.
Proof.
  intros [Hxy Hyx] Hyz. destruct (elem_lt x z) eqn:Hxz; [reflexivity|].
  destruct (elem_lt z x) eqn:Hzx.
  - pose proof (lt_transitive _ _ _ Hyz Hzx). congruence.
  - destruct (unordered_transitive y x z) as [? _]; [done | done | congruence].
Qed.

Lemma lexicographic_irreflexive xs : lexicographic xs xs = false.
Proof.
  induction xs as [|x xs IH]; cbn [lexicographic]; [reflexivity|].
  by rewrite lt_irreflexive.
Qed.

Lemma lexicographic_transitive xs : ∀ ys zs,
  lexicographic xs ys = true → lexicographic ys zs = true →
  lexicographic xs zs = true.
Proof.
  induction xs as [|x xs IH]; intros [|y ys] [|z zs]; cbn [lexicographic];
    try done.
  destruct (elem_lt x y) eqn:Hxy.
  - intros _. destruct (elem_lt y z) eqn:Hyz.
    + intros _. by rewrite (lt_transitive _ _ _ Hxy Hyz).
    + destruct (elem_lt z y) eqn:Hzy; [done|]. intros _.
      by rewrite (lt_unordered_r x y z Hxy (conj Hyz Hzy)).
  - destruct (elem_lt y x) eqn:Hyx; [done|]. intros Hrest.
    destruct (elem_lt y z) eqn:Hyz.
    + intros _. by rewrite (lt_unordered_l x y z (conj Hxy Hyx) Hyz).
    + destruct (elem_lt z y) eqn:Hzy; [done|]. intros Hrest'.
      destruct (unordered_transitive x y z (conj Hxy Hyx) (conj Hyz Hzy)) as [-> ->].
      by apply (IH ys zs).
Qed.

(** X18: when [operator<] of [T] is a strict weak order, so is
    [operator<] on containers: it is irreflexive and transitive, and being
    unordered (neither [a < b] nor [b < a]) is transitive; hence it is also
    asymmetric. *)
Theorem ordering_strict_weak a b c O tr sa sb sc xs ys zs :
  O !! a = Some sa → O !! b = Some sb → O !! c = Some sc →
  holds sa xs → holds sb ys → holds sc zs →
  let w := World O tr in
  ¬ less_in w a a
  ∧ (less_in w a b → ¬ less_in w b a)
  ∧ (less_in w a b → less_in w b c → less_in w a c)
  ∧ (¬ less_in w a b → ¬ less_in w b a → ¬ less_in w b c → ¬ less_in w c b →
     ¬ less_in w a c ∧ ¬ less_in w c a).
Proof.
  intros Ha Hb Hc Hxs Hys Hzs w. unfold less_in, w.
  rewrite (operator_lt_ok _ _ a a sa sa xs xs), (operator_lt_ok _ _ a b sa sb xs ys),
    (operator_lt_ok _ _ b a sb sa ys xs), (operator_lt_ok _ _ b c sb sc ys zs),
    (operator_lt_ok _ _ c b sc sb zs ys), (operator_lt_ok _ _ a c sa sc xs zs),
    (operator_lt_ok _ _ c a sc sa zs xs) by done.
  assert (Hok : ∀ r : bool, (Ok r, World O tr) = (Ok true, World O tr) ↔ r = true)
    by (intros r; split; [by intros [= ->] | by intros ->]).
  rewrite !Hok. split; [|split; [|split]].
  - by rewrite lexicographic_irreflexive.
  - intros Hab Hba.
    pose proof (lexicographic_transitive _ _ _ Hab Hba).
    by rewrite lexicographic_irreflexive in *.
  - apply lexicographic_transitive.
  - intros Hab%not_true_is_false Hba%not_true_is_false
           Hbc%not_true_is_false Hcb%not_true_is_false.
    enough (lexicographic xs zs = false ∧ lexicographic zs xs = false)
      as [-> ->] by done.
    apply lexicographic_unordered.
    eapply Forall2_trans; [exact unordered_transitive | |];
      by apply lexicographic_unordered.
Qed.

(** X19: the derived operators, when [operator<] of [T] is a strict weak
    order: [a <= b] is true exactly when [b < a] is not, [a >= b] exactly
    when [a < b] is not, [a > b] exactly when [b < a]; [a < b] implies
    [a <= b], and of [a <= b] and [b <= a] at least one is true. *)
Theorem derived_comparisons a b O tr sa sb xs ys :
  O !! a = Some sa → O !! b = Some sb → holds sa xs → holds sb ys →
  let w := World O tr in
  ∃ lt_ab lt_ba : bool,
    operator_lt a b w = (Ok lt_ab, w) ∧ operator_lt b a w = (Ok lt_ba, w)
    ∧ operator_gt a b w = (Ok lt_ba, w)
    ∧ operator_le a b w = (Ok (negb lt_ba), w)
    ∧ operator_ge a b w = (Ok (negb lt_ab), w)
    ∧ operator_le b a w = (Ok (negb lt_ab), w)
    ∧ (lt_ab = true → negb lt_ba = true)
    ∧ (negb lt_ba = true ∨ negb lt_ab = true).
Proof.
  intros Ha Hb Hxs Hys w. unfold w.
  exists (lexicographic xs ys), (lexicographic ys xs).
  pose proof (operator_lt_ok O tr a b sa sb xs ys Ha Hb Hxs Hys) as Hab.
  pose proof (operator_lt_ok O tr b a sb sa ys xs Hb Ha Hys Hxs) as Hba.
  assert (Hasym : lexicographic xs ys = true → lexicographic ys xs = false).
  { intros H1. destruct (lexicographic ys xs) eqn:H2; [|reflexivity].
    pose proof (lexicographic_transitive _ _ _ H1 H2).
    by rewrite lexicographic_irreflexive in *. }
  split; [exact Hab|]. split; [exact Hba|]. split; [exact Hba|].
  split; [unfold operator_le, operator_gt; by rewrite (run_bind_ok _ _ _ _ _ Hba)|].
  split; [unfold operator_ge; by rewrite (run_bind_ok _ _ _ _ _ Hab)|].
  split; [unfold operator_le, operator_gt; by rewrite (run_bind_ok _ _ _ _ _ Hab)|].
  split.
  - intros H1. by rewrite (Hasym H1).
  - destruct (lexicographic xs ys) eqn:H1; [left; by rewrite (Hasym eq_refl) | by right].
Qed.

End strict_weak_order.

(** X20: when [operator==] of [T] holds exactly between the elements that
    [operator<] leaves unordered, [a == b] is true exactly when neither
    [a < b] nor [b < a] is. *)
Theorem equality_matches_ordering `{Element T} a b O tr sa sb xs ys :
  (∀ x y : T, elem_eq x y = true ↔ unordered x y) →
  O !! a = Some sa → O !! b = Some sb → holds sa xs → holds sb ys →
  let w := World O tr in
  equal_in w a b ↔ ¬ less_in w a b ∧ ¬ less_in w b a.
Proof.
  intros Heq Ha Hb Hxs Hys w. unfold w, less_in.
  rewrite (equal_in_iff O tr a b sa sb xs ys Ha Hb Hxs Hys).
  rewrite (operator_lt_ok _ _ a b sa sb xs ys), (operator_lt_ok _ _ b a sb sa ys xs)
    by done.
  assert (Hok : ∀ r : bool, ¬ (Ok r, World O tr) = (Ok true, World O tr) ↔ r = false).
  { intros [|]; split; intros Hr; done. }
  rewrite !Hok, lexicographic_unordered. split.
  - intros [Hlen Hall]. apply Forall2_same_length_lookup_2; [exact Hlen|].
    intros k x y Hx Hy. apply Heq. by eapply Hall.
  - intros Hf. split; [exact (Forall2_length Hf)|].
    intros k x y Hx Hy. apply Heq. exact (Forall2_lookup_lr _ _ _ _ _ _ Hf Hx Hy).
Qed.

End ordering_properties.

(** * Instances of the further properties on concrete containers *)

Lemma sample_124_holds : holds sample_124 [1; 2; 4].
Proof. concrete_holds. Defined.

Lemma raw_storage_holds : holds raw_storage [].
Proof. concrete_holds. Defined.

Lemma int_copies : Forall2 (λ x y : Z, copy_construct x = Some y) [1; 2; 3] [1; 2; 3].
Proof. repeat constructor. Defined.

Lemma int_lt_irreflexive (x : Z) : elem_lt x x = false.
Proof. apply Z.ltb_irrefl. Qed.

Lemma int_lt_transitive (x y z : Z) :
  elem_lt x y = true → elem_lt y z = true → elem_lt x z = true.
Proof. cbn [elem_lt int_ordered]. rewrite !Z.ltb_lt. lia. Qed.

Lemma int_unordered_transitive (x y z : Z) :
  unordered x y → unordered y z → unordered x z.
Proof. unfold unordered. cbn [elem_lt int_ordered]. rewrite !Z.ltb_ge. lia. Qed.

Lemma int_eq_unordered (x y : Z) : elem_eq x y = true ↔ unordered x y.
Proof.
  unfold unordered. cbn [elem_eq int_element elem_lt int_ordered].
  rewrite Z.eqb_eq, !Z.ltb_ge. lia.
Qed.

Lemma fill_construction_witness :
  ∃ w' : world Z,
    static_vector_fill 4 1%positive 3 7 one_object = (Ok tt, w')
    ∧ iterate 1%positive w' = (Ok [7; 7; 7], w').
Proof.
  destruct (fill_construction 4 capacity_4_range 1%positive 3 7
              (objs one_object) [] raw_storage) as [_ Hfits].
  - reflexivity.
  - lia.
  - destruct (Hfits ltac:(lia) 7 eq_refl) as (w' & Hrun & _ & _ & Hiter).
    exists w'. exact (conj Hrun Hiter).
Defined.

Lemma range_construction_copy_throws_witness :
  @static_vector_range Z fragile_element 4 1%positive [1; 2; -3; 4] one_object
  = (Throw element_exception,
     World (<[1%positive := StaticVector (place 0 [1; 2] ∅) 2]> (objs one_object))
           [Construct 1%positive 0 1; Construct 1%positive 1 2]).
Proof.
  refine (proj1 (@range_construction_copy_throws Z fragile_element 4 capacity_4_range
                   1%positive [1; 2] [1; 2] [4] (-3) (objs one_object) [] raw_storage
                   _ _ _ _)).
  - reflexivity.
  - vm_compute. discriminate.
  - repeat constructor.
  - reflexivity.
Defined.

Lemma copy_construction_witness :
  ∃ O' d,
    static_vector_copy 2%positive 1%positive (World store_123_raw [])
    = (Ok tt, World O' [Construct 2%positive 0 1; Construct 2%positive 1 2;
                        Construct 2%positive 2 3])
    ∧ O' !! 2%positive = Some d ∧ holds d [1; 2; 3]
    ∧ O' !! 1%positive = Some sample_123.
Proof.
  destruct (copy_construction (T:=Z) 2%positive 1%positive store_123_raw []
              raw_storage sample_123 [1; 2; 3] [1; 2; 3])
    as (O' & d & Hrun & Hd & Hheld & Hframe & _).
  - lia.
  - reflexivity.
  - reflexivity.
  - exact sample_123_holds.
  - vm_compute. reflexivity.
  - exact int_copies.
  - exists O', d. split; [exact Hrun|]. split; [exact Hd|]. split; [exact Hheld|].
    rewrite (Hframe 1%positive) by lia. reflexivity.
Defined.


Lemma append_below_capacity_witness :
  ∃ d, push_back 4 1%positive 7 (World store_123 [])
       = (Ok tt, World (<[1%positive := d]> store_123) [Construct 1%positive 3 7])
       ∧ holds d [1; 2; 3; 7].
Proof.
  destruct (append_below_capacity (T:=Z) 4 capacity_4_range 1%positive store_123 []
              sample_123 [1; 2; 3]) as (Hcopy & _).
  - reflexivity.
  - exact sample_123_holds.
  - vm_compute. reflexivity.
  - exact (Hcopy 7 7 eq_refl).
Defined.


Lemma pop_back_removes_last_witness :
  ∃ d, pop_back 1%positive (World store_123 [])
       = (Ok tt, World (<[1%positive := d]> store_123) [Destroy 1%positive 2 (Some 3)])
       ∧ holds d [1; 2].
Proof.
  apply (pop_back_removes_last (T:=Z) 1%positive store_123 [] sample_123 [1; 2] 3).
  - reflexivity.
  - exact sample_123_holds.
  - vm_compute. reflexivity.
Defined.

Lemma push_back_then_pop_back_witness :
  ∃ d, (push_back 4 1%positive 7;; pop_back 1%positive) (World store_123 [])
       = (Ok tt, World (<[1%positive := d]> store_123)
                       [Construct 1%positive 3 7; Destroy 1%positive 3 (Some 7)])
       ∧ holds d [1; 2; 3]
       ∧ <[1%positive := d]> store_123 = store_123.
Proof.
  destruct (push_back_then_pop_back (T:=Z) 4 capacity_4_range 1%positive 7 7
              store_123 [] sample_123 [1; 2; 3]) as (d & Hrun & Hd & Hsame).
  - reflexivity.
  - exact sample_123_holds.
  - vm_compute. reflexivity.
  - reflexivity.
  - exists d. split; [exact Hrun|]. split; [exact Hd|]. apply Hsame. reflexivity.
Defined.

Lemma pop_back_on_empty_witness :
  ∃ (w' : world Z) d,
    pop_back 1%positive one_object = (Ok tt, w')
    ∧ objs w' = <[1%positive := d]> (objs one_object)
    ∧ curr_size d = SIZE_MODULUS - 1
    ∧ empty 1%positive w' = (Ok false, w').
Proof.
  destruct (pop_back_on_empty (T:=Z) 1%positive (objs one_object) [] raw_storage)
    as (w' & d & Hrun & Hobjs & Hsize & _ & Hempty).
  - reflexivity.
  - reflexivity.
  - exists w', d. exact (conj Hrun (conj Hobjs (conj Hsize Hempty))).
Defined.

Lemma clear_destroys_all_witness :
  ∃ d, clear 1%positive (World store_123 [])
       = (Ok tt, World (<[1%positive := d]> store_123)
                       [Destroy 1%positive 2 (Some 3); Destroy 1%positive 1 (Some 2);
                        Destroy 1%positive 0 (Some 1)])
       ∧ curr_size d = 0.
Proof.
  destruct (clear_destroys_all (T:=Z) 1%positive store_123 [] sample_123 [1; 2; 3])
    as ((d & Hrun & Hsize & _) & _).
  - reflexivity.
  - exact sample_123_holds.
  - vm_compute. reflexivity.
  - exists d. exact (conj Hrun Hsize).
Defined.

Lemma unvalidated_access_witness :
  (r ← front 1%positive; deref r) (World store_123 []) = (Ok 1, World store_123 [])
  ∧ (r ← back 1%positive; deref r) (World store_123 []) = (Ok 3, World store_123 []).
Proof.
  destruct (unvalidated_access (T:=Z) 1%positive store_123 [] sample_123 [1; 2; 3])
    as (_ & Hfront & Hback).
  - reflexivity.
  - exact sample_123_holds.
  - vm_compute. reflexivity.
  - exact (conj (Hfront 1 eq_refl) (Hback 3 eq_refl)).
Defined.

Lemma reverse_iteration_witness :
  iterate_reverse 1%positive (World store_123 [])
  = (Ok [3; 2; 1], World store_123 []).
Proof.
  apply (reverse_iteration (T:=Z) 1%positive store_123 [] sample_123 [1; 2; 3]).
  - reflexivity.
  - exact sample_123_holds.
Defined.

Lemma ordering_strict_weak_witness :
  ¬ less_in (World store_123_124 []) 1%positive 1%positive
  ∧ (less_in (World store_123_124 []) 1%positive 2%positive →
     ¬ less_in (World store_123_124 []) 2%positive 1%positive).
Proof.
  destruct (ordering_strict_weak (T:=Z) int_lt_irreflexive int_lt_transitive
              int_unordered_transitive 1%positive 2%positive 2%positive
              store_123_124 [] sample_123 sample_124 sample_124
              [1; 2; 3] [1; 2; 4] [1; 2; 4])
    as (Hirr & Hasym & _).
  - reflexivity.
  - reflexivity.
  - reflexivity.
  - exact sample_123_holds.
  - exact sample_124_holds.
  - exact sample_124_holds.
  - exact (conj Hirr Hasym).
Defined.

Lemma derived_comparisons_witness :
  ∃ lt_ab lt_ba : bool,
    operator_lt 1%positive 2%positive (World store_123_124 [])
    = (Ok lt_ab, World store_123_124 [])
    ∧ operator_le 1%positive 2%positive (World store_123_124 [])
      = (Ok (negb lt_ba), World store_123_124 [])
    ∧ (lt_ab = true → negb lt_ba = true).
Proof.
  destruct (derived_comparisons (T:=Z) int_lt_irreflexive int_lt_transitive
              int_unordered_transitive 1%positive 2%positive
              store_123_124 [] sample_123 sample_124 [1; 2; 3] [1; 2; 4])
    as (lt_ab & lt_ba & Hlt & _ & _ & Hle & _ & _ & Himp & _).
  - reflexivity.
  - reflexivity.
  - exact sample_123_holds.
  - exact sample_124_holds.
  - exists lt_ab, lt_ba. exact (conj Hlt (conj Hle Himp)).
Defined.

Lemma equality_matches_ordering_witness :
  equal_in (World store_123_124 []) 1%positive 2%positive
  ↔ ¬ less_in (World store_123_124 []) 1%positive 2%positive
    ∧ ¬ less_in (World store_123_124 []) 2%positive 1%positive.
Proof.
  apply (equality_matches_ordering (T:=Z) 1%positive 2%positive store_123_124 []
           sample_123 sample_124 [1; 2; 3] [1; 2; 4]).
  - exact int_eq_unordered.
  - reflexivity.
  - reflexivity.
  - exact sample_123_holds.
  - exact sample_124_holds.
Defined.

Lemma copy_assignment_same_size_witness :
  ∃ d,
    assign_copy 2%positive 1%positive (World store_123_124 [])
    = (Ok 2%positive,
       World (<[2%positive := d]> store_123_124)
         [Construct 3%positive 0 1; Construct 3%positive 1 2; Construct 3%positive 2 3;
          Destroy 3%positive 2 (Some 4); Destroy 3%positive 1 (Some 2);
          Destroy 3%positive 0 (Some 1)])
    ∧ holds d [1; 2; 3].
Proof.
  destruct (copy_assignment_same_size (T:=Z) 4 capacity_4_range 2%positive 1%positive
              store_123_124 [] sample_124 sample_123 [1; 2; 3] [1; 2; 3] [1; 2; 4])
    as (d & Hrun & Hd & _).
  - reflexivity.
  - reflexivity.
  - exact sample_124_holds.
  - exact sample_123_holds.
  - reflexivity.
  - cbn [length]. lia.
  - exact int_copies.
  - exists d. split; [exact Hrun | exact Hd].
Defined.

Lemma swap_same_size_witness :
  ∃ O',
    swap_friend 1%positive 2%positive (World store_123_124 []) = (Ok tt, World O' [])
    ∧ (∃ sa', O' !! 1%positive = Some sa' ∧ holds sa' [1; 2; 4])
    ∧ (∃ sb', O' !! 2%positive = Some sb' ∧ holds sb' [1; 2; 3])
    ∧ (swap_friend 1%positive 2%positive;; swap_friend 1%positive 2%positive)
        (World store_123_124 [])
      = (Ok tt, World store_123_124 []).
Proof.
  destruct (swap_same_size (T:=Z) 1%positive 2%positive store_123_124 []
              sample_123 sample_124 [1; 2; 3] [1; 2; 4])
    as (O' & Hrun & Ha & Hb & _ & _ & Htwice).
  - reflexivity.
  - reflexivity.
  - exact sample_123_holds.
  - exact sample_124_holds.
  - reflexivity.
  - exists O'. split; [exact Hrun|]. split; [exact Ha|]. split; [exact Hb | exact Htwice].
Defined.

Lemma mutations_keep_capacity_witness :
  ∃ d evs xs',
    perform_all 4 1%positive
      [do_push_back 1; do_push_back 2; do_pop_back; do_clear; do_push_back_move 3]
      one_object
    = (Ok tt, World (<[1%positive := d]> (objs one_object)) ([] ++ evs))
    ∧ holds d xs' ∧ Z.of_nat (length xs') ≤ 4 ∧ Forall (within 4 1%positive) evs.
Proof.
  apply (mutations_keep_capacity (T:=Z) 4 capacity_4_range 1%positive _
           (objs one_object) [] raw_storage []).
  - reflexivity.
  - exact raw_storage_holds.
  - cbn [length]. lia.
Defined.

End ksv.
